(** * Bond analytics of bondfinal.cpp: a shallow embedding and its properties

    The program is one C++ class, [Bond], with const member functions that
    compute prices, yields, durations and convexity, four printing reports
    and one mutator, [calculate_required_yield].

    Numbers.  The fields and results of type [double] are modelled by exact
    rationals in lowest terms ([Qc]); every arithmetic operation is the exact
    one.  Rounding, infinities and NaN of IEEE arithmetic are outside this
    model: where the C++ program divides by zero the model yields [0] (the
    convention of [Qcinv]); the statements below either keep the divisors
    away from zero or do not depend on the value of such a quotient.  The
    fields of type [int] are modelled by [Z]; signed overflow is undefined
    behaviour in C++ and is outside the model as well.

    Where a statement turns on rounding, the price and the yield search are
    given a second time, on binary64 numbers with the rounded operations of
    IEEE 754 (module [Binary64]).

    Output.  What a report writes to [std::cout] is a list of tokens, one per
    operand of the [<<] chains, in the order of the source. *)

From Stdlib Require Import ZArith QArith Qcanon List String Lia Lqa Bool.
From Stdlib Require Import PrimFloat Uint63.
Import ListNotations.

Local Open Scope Qc_scope.

(** ** Numbers *)

(** Conversion of an [int] operand to [double]. *)
Definition of_int (z : Z) : Qc := Q2Qc (inject_Z z).

(** Decimal literals of the source. *)
Definition dec (num : Z) (den : positive) : Qc := Q2Qc (num # den).

(** [x < y] and [x <= y] on doubles, as the conditions of [if], [for] and
    [while] evaluate them. *)
Definition ltb (x y : Qc) : bool :=
  match x ?= y with Lt => true | _ => false end.

Definition leb (x y : Qc) : bool :=
  match x ?= y with Gt => false | _ => true end.

(** [x == y] on doubles. *)
Definition eqb (x y : Qc) : bool := Qc_eq_bool x y.

(** [fabs] of <cmath>. *)
Definition fabs (x : Qc) : Qc := if ltb x 0 then - x else x.

(** [pow] of <cmath> at an exponent that is an [int]. *)
Definition pow (x : Qc) (n : Z) : Qc :=
  match n with
  | Z0 => 1
  | Zpos p => x ^ Pos.to_nat p
  | Zneg p => / (x ^ Pos.to_nat p)
  end.

(** ** The class *)

Record Bond : Type := mkBond {
  face_value : Qc;
  coupon_rate : Qc;
  market_price : Qc;
  remaining_years : Z;
  payment_frequency : Z;
  required_yield : Qc
}.

(** The default argument of the constructor, [required_yield = -1.0]. *)
Definition unset_yield : Qc := dec (-1) 1.

(** [temp_bond.payment_frequency = freq] on a copy of the object. *)
Definition with_payment_frequency (freq : Z) (b : Bond) : Bond :=
  mkBond (face_value b) (coupon_rate b) (market_price b)
         (remaining_years b) freq (required_yield b).

(** [required_yield = y]. *)
Definition with_required_yield (y : Qc) (b : Bond) : Bond :=
  mkBond (face_value b) (coupon_rate b) (market_price b)
         (remaining_years b) (payment_frequency b) y.

(** [int periods = remaining_years * payment_frequency]. *)
Definition periods (b : Bond) : Z :=
  (remaining_years b * payment_frequency b)%Z.

(** The loop [for (int t = 1; t <= periods; ++t) acc += term(t)], shared by
    present value, duration and convexity: [n] iterations are left, [t] is
    the loop variable. *)
Fixpoint accumulate (term : Z -> Qc) (n : nat) (t : Z) (acc : Qc) : Qc :=
  match n with
  | O => acc
  | S n' => accumulate term n' (t + 1)%Z (acc + term t)
  end.

Definition for_periods (b : Bond) (term : Z -> Qc) : Qc :=
  accumulate term (Z.to_nat (periods b)) 1%Z 0.

Definition calculate_coupon (b : Bond) : Qc :=
  face_value b * coupon_rate b / of_int (payment_frequency b).

(** [1 + rate / payment_frequency], the base of every discount factor. *)
Definition growth (b : Bond) (rate : Qc) : Qc :=
  1 + rate / of_int (payment_frequency b).

Definition calculate_present_value (b : Bond) (rate : Qc) : Qc :=
  let coupon := calculate_coupon b in
  let pv := for_periods b (fun t => coupon / pow (growth b rate) t) in
  pv + face_value b / pow (growth b rate) (periods b).

(** The loop of [calculate_ytm]: [n] iterations are left; [mid] is the value
    of the variable [mid] on entry. *)
Fixpoint ytm_loop (b : Bond) (tol : Qc) (n : nat) (low high mid : Qc) : Qc :=
  match n with
  | O => mid
  | S n' =>
      let mid := (low + high) / dec 2 1 in
      let pv := calculate_present_value b mid in
      let diff := market_price b - pv in
      if ltb (fabs diff) tol then mid
      else if ltb pv (market_price b)
           then ytm_loop b tol n' low mid mid
           else ytm_loop b tol n' mid high mid
  end.

Definition calculate_ytm (b : Bond) (tol : Qc) (max_iter : Z) : Qc :=
  ytm_loop b tol (Z.to_nat max_iter) 0 1 0.

(** The default arguments [tol = 1e-6] and [max_iter = 1000]. *)
Definition default_tol : Qc := dec 1 1000000.
Definition default_max_iter : Z := 1000%Z.

Definition calculate_macaulay_duration (b : Bond) : Qc :=
  let coupon := calculate_coupon b in
  let g := growth b (required_yield b) in
  let duration := for_periods b (fun t => of_int t * coupon / pow g t) in
  let duration :=
    duration + of_int (periods b) * face_value b / pow g (periods b) in
  duration / market_price b.

Definition calculate_modified_duration (b : Bond) : Qc :=
  let macaulay_duration := calculate_macaulay_duration b in
  macaulay_duration / growth b (required_yield b).

Definition calculate_convexity (b : Bond) : Qc :=
  let coupon := calculate_coupon b in
  let g := growth b (required_yield b) in
  let convexity :=
    for_periods b
      (fun t => of_int (t * (t + 1)) * coupon / pow g (t + 2)) in
  let convexity :=
    convexity
    + of_int (periods b * (periods b + 1)) * face_value b
      / pow g (periods b + 2) in
  convexity / market_price b.

Definition calculate_current_yield (b : Bond) : Qc :=
  calculate_coupon b / market_price b.

(** ** The break-even bisection *)

(** The local variables of [calculate_break_even_yield]; [be_mid] is [None]
    until the first assignment ([mid] is declared without an initialiser),
    and [be_steps] counts the executions of the loop body. *)
Record be_state : Type := mkBe {
  be_low : Qc;
  be_high : Qc;
  be_mid : option Qc;
  be_steps : nat
}.

Definition be_init : be_state := mkBe 0 1 None 0.

(** The loop condition [high - low > 1e-6]. *)
Definition be_guard (s : be_state) : bool :=
  ltb (dec 1 1000000) (be_high s - be_low s).

(** One execution of the loop body. *)
Definition be_step (b : Bond) (reference_price : Qc) (s : be_state)
  : be_state :=
  let mid := (be_low s + be_high s) / dec 2 1 in
  let pv := calculate_present_value b mid in
  if ltb pv reference_price
  then mkBe mid (be_high s) (Some mid) (S (be_steps s))
  else mkBe (be_low s) mid (Some mid) (S (be_steps s)).

(** The [while] loop.  It has no bound in the source; [fuel] bounds the
    number of guard tests, and [None] means that the fuel ran out. *)
Fixpoint be_loop (b : Bond) (reference_price : Qc) (fuel : nat)
  (s : be_state) : option be_state :=
  match fuel with
  | O => None
  | S fuel' =>
      if be_guard s
      then be_loop b reference_price fuel' (be_step b reference_price s)
      else Some s
  end.

(** [return mid]: [None] when the loop did not finish within the fuel or
    when [mid] was never assigned. *)
Definition calculate_break_even_yield (fuel : nat) (b : Bond)
  (reference_price : Qc) : option Qc :=
  match be_loop b reference_price fuel be_init with
  | Some s => be_mid s
  | None => None
  end.

(** ** Output and calls *)

(** The operands of the [<<] chains on [std::cout]. *)
Inductive token : Type :=
| Text (s : string)
| Num (x : Qc)
| Int (z : Z)
| Fixed
| SetPrecision (n : Z)
| Endl.

(** The string with the one character written [\n] in the source. *)
Definition nl : string := String (Ascii.ascii_of_nat 10) EmptyString.

(** The ways a call of a member function on an object can end: it returns a
    value, leaving the object in a state and some output behind; it is left
    by an exception; or, in this model only, a loop without a bound used up
    its fuel.  The source has no [throw] and calls nothing that throws, so
    no definition below builds [Thrown]. *)
Inductive outcome (A : Type) : Type :=
| Returned (a : A) (after : Bond) (out : list token)
| Thrown (what : string)
| Unfinished.

Arguments Returned {A} a after out.
Arguments Thrown {A} what.
Arguments Unfinished {A}.

Definition call (A : Type) : Type := Bond -> outcome A.

Definition ret {A : Type} (a : A) : call A := fun b => Returned a b [].

Definition bind {A B : Type} (m : call A) (k : A -> call B) : call B :=
  fun b =>
    match m b with
    | Returned a b1 out1 =>
        match k a b1 with
        | Returned r b2 out2 => Returned r b2 (out1 ++ out2)
        | Thrown what => Thrown what
        | Unfinished => Unfinished
        end
    | Thrown what => Thrown what
    | Unfinished => Unfinished
    end.

Notation "x <- m ;; k" := (bind m (fun x => k))
  (at level 61, m at next level, right associativity).
Notation "m ;;; k" := (bind m (fun _ => k))
  (at level 61, right associativity).

(** A [const] member function that returns a value. *)
Definition const_call {A : Type} (f : Bond -> A) : call A :=
  fun b => Returned (f b) b [].

(** A [const] member function that prints. *)
Definition const_print (f : Bond -> list token) : call unit :=
  fun b => Returned tt b (f b).

(** A [const] member function with a loop that needs fuel. *)
Definition const_partial {A : Type} (f : Bond -> option A) : call A :=
  fun b => match f b with Some a => Returned a b [] | None => Unfinished end.

Definition const_partial_print (f : Bond -> option (list token)) : call unit :=
  fun b => match f b with Some out => Returned tt b out | None => Unfinished end.

(** Output of [main] itself. *)
Definition print (out : list token) : call unit :=
  fun b => Returned tt b out.

(** ** The reports *)

(** [double yield_change = 0.005]. *)
Definition yield_change : Qc := dec 5 1000.

(** The loop of [display_price_sensitivity], whose variable [i] is a double:
    the pairs [(new_yield, new_price)] of the iterations, [None] when the
    fuel ran out. *)
Fixpoint sensitivity_loop (b : Bond) (fuel : nat) (i : Qc)
  : option (list (Qc * Qc)) :=
  match fuel with
  | O => None
  | S fuel' =>
      if leb i (of_int 2 * yield_change)
      then
        let new_yield := required_yield b + i in
        let new_price := calculate_present_value b new_yield in
        match sensitivity_loop b fuel' (i + yield_change) with
        | Some rows => Some ((new_yield, new_price) :: rows)
        | None => None
        end
      else Some []
  end.

Definition price_sensitivity_rows (fuel : nat) (b : Bond)
  : option (list (Qc * Qc)) :=
  sensitivity_loop b fuel (of_int (-2) * yield_change).

Definition print_sensitivity_row (row : Qc * Qc) : list token :=
  [Text "Yield: "; Fixed; SetPrecision 4; Num (fst row);
   Text " | Price: "; Num (snd row); Endl].

Definition display_price_sensitivity (fuel : nat) (b : Bond)
  : option (list token) :=
  match price_sensitivity_rows fuel b with
  | Some rows =>
      Some (Text ("Price Sensitivity Analysis:" ++ nl)
            :: flat_map print_sensitivity_row rows)
  | None => None
  end.

(** [double scenarios[] = {-0.02, -0.01, 0.0, 0.01, 0.02}]. *)
Definition scenarios : list Qc :=
  [dec (-2) 100; dec (-1) 100; dec 0 1; dec 1 100; dec 2 100].

(** The figures one iteration of [display_scenario_analysis] prints. *)
Record scenario_row : Type := mkScenario {
  sc_yield : Qc;
  sc_price : Qc;
  sc_macaulay : Qc;
  sc_modified : Qc;
  sc_convexity : Qc
}.

Definition scenario_row_of (b : Bond) (delta : Qc) : scenario_row :=
  let new_yield := required_yield b + delta in
  mkScenario new_yield
             (calculate_present_value b new_yield)
             (calculate_macaulay_duration b)
             (calculate_modified_duration b)
             (calculate_convexity b).

Definition scenario_rows (b : Bond) : list scenario_row :=
  map (scenario_row_of b) scenarios.

Definition print_scenario_row (r : scenario_row) : list token :=
  [Text "Yield: "; Fixed; SetPrecision 4; Num (sc_yield r); Endl;
   Text "Price: "; Num (sc_price r); Endl;
   Text "Macaulay Duration: "; Num (sc_macaulay r); Endl;
   Text "Modified Duration: "; Num (sc_modified r); Endl;
   Text "Convexity: "; Num (sc_convexity r); Endl;
   Endl].

Definition display_scenario_analysis (b : Bond) : list token :=
  Text ("Scenario Analysis:" ++ nl)
  :: flat_map print_scenario_row (scenario_rows b).

(** [int frequencies[] = {1, 2, 4}]. *)
Definition frequencies : list Z := [1%Z; 2%Z; 4%Z].

Definition frequency_name (freq : Z) : string :=
  if Z.eqb freq 1 then "Annual"
  else if Z.eqb freq 2 then "Semi-Annual"
  else "Quarterly".

Definition print_frequency_row (b : Bond) (freq : Z) : list token :=
  let temp_bond := with_payment_frequency freq b in
  [Text "Payment Frequency: "; Text (frequency_name freq); Endl;
   Text "Price: ";
   Num (calculate_present_value temp_bond (required_yield b)); Endl;
   Text "Macaulay Duration: ";
   Num (calculate_macaulay_duration temp_bond); Endl;
   Text "Modified Duration: ";
   Num (calculate_modified_duration temp_bond); Endl;
   Text "Convexity: "; Num (calculate_convexity temp_bond); Endl;
   Endl].

Definition display_frequency_analysis (b : Bond) : list token :=
  Text ("Frequency Analysis:" ++ nl)
  :: flat_map (print_frequency_row b) frequencies.

(** The loop of [display_amortization_schedule]: [n] iterations are left,
    [t] is the loop variable. *)
Fixpoint amortization_loop (b : Bond) (n : nat) (t : Z) : list token :=
  match n with
  | O => []
  | S n' =>
      let coupon := calculate_coupon b in
      let payment_time := of_int t / of_int (payment_frequency b) in
      let payment :=
        if Z.eqb t (periods b) then coupon + face_value b else coupon in
      [Text "Period: "; Int t; Text " | Payment Time: "; Num payment_time;
       Text " | Payment: "; Num payment; Endl]
      ++ amortization_loop b n' (t + 1)%Z
  end.

Definition display_amortization_schedule (b : Bond) : list token :=
  Text ("Amortization Schedule:" ++ nl)
  :: amortization_loop b (Z.to_nat (periods b)) 1%Z.

(** ** The mutator *)

Definition calculate_required_yield : call unit :=
  fun b =>
    if eqb (required_yield b) unset_yield
    then
      Returned tt
        (with_required_yield (calculate_ytm b default_tol default_max_iter) b)
        [Text "Calculating required yield (YTM) based on the market price...";
         Endl]
    else Returned tt b [].

(** ** The program *)

(** The six values [main] reads from [std::cin]. *)
Record input : Type := mkInput {
  in_face_value : Qc;
  in_coupon_rate : Qc;
  in_market_price : Qc;
  in_remaining_years : Z;
  in_payment_frequency : Z;
  in_required_yield : Qc
}.

Definition prompts : list token :=
  [Text "Enter Face Value (e.g. 1000): ";
   Text "Enter Coupon Rate (e.g. 0.05 for 5%): ";
   Text "Enter Market Price (e.g. 950): ";
   Text "Enter Remaining Maturity in Years (e.g. 8): ";
   Text "Enter Payment Frequency (1 for annual, 2 for semi-annual): ";
   Text "Enter Required Yield (e.g. 0.06 for 6%, or -1 if you want it to be calculated based on price): "].

(** The statements of [main] from "Calculate and display bond metrics"
    on. *)
Definition report (fuel : nat) (i : input) : call unit :=
  print [Text (nl ++ "Bond Analysis:" ++ nl)] ;;;
  pv <- const_call
          (fun b => calculate_present_value b (required_yield b)) ;;
  print [Text "Present Value (Price): "; Num pv; Endl] ;;;
  ytm <- const_call
           (fun b => calculate_ytm b default_tol default_max_iter) ;;
  print [Text "Yield to Maturity (YTM): "; Num ytm; Endl] ;;;
  d <- const_call calculate_macaulay_duration ;;
  print [Text "Macaulay Duration: "; Num d; Endl] ;;;
  md <- const_call calculate_modified_duration ;;
  print [Text "Modified Duration: "; Num md; Endl] ;;;
  c <- const_call calculate_convexity ;;
  print [Text "Convexity: "; Num c; Endl] ;;;
  cy <- const_call calculate_current_yield ;;
  print [Text "Current Yield: "; Num cy; Endl] ;;;
  const_partial_print (display_price_sensitivity fuel) ;;;
  be <- const_partial
          (fun b => calculate_break_even_yield fuel b (in_market_price i)) ;;
  print [Text "Break-Even Yield: "; Num be; Endl] ;;;
  const_print display_scenario_analysis ;;;
  const_print display_frequency_analysis ;;;
  const_print display_amortization_schedule.

(** The statements of [main] after the construction of [bond]. *)
Definition analysis (fuel : nat) (i : input) : call unit :=
  (if eqb (in_required_yield i) unset_yield
   then calculate_required_yield else ret tt) ;;;
  report fuel i.

(** [main] on the values read: the prompts, then the analysis of the bond
    built from them.  The closing [system("pause")] writes nothing to
    [std::cout] and is left out. *)
Definition bond_main (fuel : nat) (i : input) : outcome unit :=
  match
    analysis fuel i
      (mkBond (in_face_value i) (in_coupon_rate i) (in_market_price i)
              (in_remaining_years i) (in_payment_frequency i)
              (in_required_yield i))
  with
  | Returned tt b out => Returned tt b (prompts ++ out)
  | Thrown what => Thrown what
  | Unfinished => Unfinished
  end.

(** ** The rows of the amortization schedule *)

(** The figures one iteration of [display_amortization_schedule] prints:
    the loop variable [t], [payment_time] and [payment]. *)
Record payment_row : Type := mkPayment {
  pay_period : Z;
  pay_time : Qc;
  pay_amount : Qc
}.

(** The loop of [display_amortization_schedule] again, keeping the figures
    of each iteration instead of printing them. *)
Fixpoint amortization_rows (b : Bond) (n : nat) (t : Z) : list payment_row :=
  match n with
  | O => []
  | S n' =>
      let coupon := calculate_coupon b in
      let payment_time := of_int t / of_int (payment_frequency b) in
      let payment :=
        if Z.eqb t (periods b) then coupon + face_value b else coupon in
      mkPayment t payment_time payment :: amortization_rows b n' (t + 1)%Z
  end.

Definition amortization_schedule (b : Bond) : list payment_row :=
  amortization_rows b (Z.to_nat (periods b)) 1%Z.

Definition print_payment_row (r : payment_row) : list token :=
  [Text "Period: "; Int (pay_period r); Text " | Payment Time: ";
   Num (pay_time r); Text " | Payment: "; Num (pay_amount r); Endl].

(** ** The price and the yield search on binary64 *)

Module Binary64.

(** The class, its [double] fields as binary64 numbers. *)
Record Bond : Type := mkBond {
  face_value : float;
  coupon_rate : float;
  market_price : float;
  remaining_years : Z;
  payment_frequency : Z;
  required_yield : float
}.

(** Conversion of an [int] operand to [double]; exact for every [int]. *)
Definition of_int (z : Z) : float :=
  match z with
  | Z0 => 0%float
  | Zpos _ => PrimFloat.of_uint63 (Uint63.of_Z z)
  | Zneg p => (- PrimFloat.of_uint63 (Uint63.of_Z (Zpos p)))%float
  end.

(** [pow] of <cmath> at an exponent that is an [int].  The function is not
    one of the operations of IEEE 754; here it multiplies, which gives the
    exact power wherever that power is a binary64 number, as at the bases 1
    and 2 and at the exponent 1, where the statements below use it. *)
Fixpoint power (x : float) (n : nat) : float :=
  match n with
  | O => 1%float
  | S n' => (x * power x n')%float
  end.

Definition pow (x : float) (n : Z) : float :=
  match n with
  | Z0 => 1%float
  | Zpos p => power x (Pos.to_nat p)
  | Zneg p => (1 / power x (Pos.to_nat p))%float
  end.

Definition periods (b : Bond) : Z :=
  (remaining_years b * payment_frequency b)%Z.

Fixpoint accumulate (term : Z -> float) (n : nat) (t : Z) (acc : float)
  : float :=
  match n with
  | O => acc
  | S n' => accumulate term n' (t + 1)%Z (acc + term t)%float
  end.

Definition for_periods (b : Bond) (term : Z -> float) : float :=
  accumulate term (Z.to_nat (periods b)) 1%Z 0%float.

Definition calculate_coupon (b : Bond) : float :=
  (face_value b * coupon_rate b / of_int (payment_frequency b))%float.

Definition growth (b : Bond) (rate : float) : float :=
  (1 + rate / of_int (payment_frequency b))%float.

Definition calculate_present_value (b : Bond) (rate : float) : float :=
  let coupon := calculate_coupon b in
  let pv := for_periods b (fun t => (coupon / pow (growth b rate) t)%float) in
  (pv + face_value b / pow (growth b rate) (periods b))%float.

(** Whether the test [fabs(diff) < tol] of [calculate_ytm] succeeds at the
    rate [mid]. *)
Definition within_tolerance (b : Bond) (tol mid : float) : bool :=
  let pv := calculate_present_value b mid in
  let diff := (market_price b - pv)%float in
  PrimFloat.ltb (PrimFloat.abs diff) tol.

Fixpoint ytm_loop (b : Bond) (tol : float) (n : nat) (low high mid : float)
  : float :=
  match n with
  | O => mid
  | S n' =>
      let mid := ((low + high) / 2)%float in
      let pv := calculate_present_value b mid in
      let diff := (market_price b - pv)%float in
      if PrimFloat.ltb (PrimFloat.abs diff) tol then mid
      else if PrimFloat.ltb pv (market_price b)
           then ytm_loop b tol n' low mid mid
           else ytm_loop b tol n' mid high mid
  end.

Definition calculate_ytm (b : Bond) (tol : float) (max_iter : Z) : float :=
  ytm_loop b tol (Z.to_nat max_iter) 0%float 1%float 0%float.

(** The binary64 number nearest to [1e-6], the default of [tol]. *)
Definition default_tol : float := 0x1.0c6f7a0b5ed8dp-20%float.

(** The midpoints the loop of [calculate_ytm] computes, in order. *)
Fixpoint ytm_midpoints (b : Bond) (tol : float) (n : nat) (low high : float)
  : list float :=
  match n with
  | O => []
  | S n' =>
      let mid := ((low + high) / 2)%float in
      let pv := calculate_present_value b mid in
      let diff := (market_price b - pv)%float in
      if PrimFloat.ltb (PrimFloat.abs diff) tol then [mid]
      else if PrimFloat.ltb pv (market_price b)
           then mid :: ytm_midpoints b tol n' low mid
           else mid :: ytm_midpoints b tol n' mid high
  end.

(** A bond whose fields are binary64 numbers: face value 1000, coupon rate
    1/16, price 950, ten years, two payments a year. *)
Definition plain_bond : Bond :=
  mkBond 1000%float 0.0625%float 950%float 10 2 (-1)%float.

(** The bond with face value 1024, coupon rate 1/4, price 512, two years and
    two payments a year. *)
Definition steep_bond : Bond :=
  mkBond 1024%float 0.25%float 512%float 2 2 2%float.


End Binary64.

(** ** Vocabulary of the statements *)

(** The width of the interval after [k] executions of the body. *)
Definition width (k : nat) : Qc := dec 1 2 ^ k.

(** What holds of the local variables after [k] executions of the body. *)
Record be_inv (k : nat) (s : be_state) : Prop := {
  inv_steps : be_steps s = k;
  inv_width : be_high s - be_low s = width k;
  inv_low : 0 <= be_low s;
  inv_high : be_high s <= 1;
  inv_mid : k <> O ->
            exists m, be_mid s = Some m /\ be_low s <= m /\ m <= be_high s
}.

(** The numbers a piece of output shows, in order. *)
Fixpoint numbers (out : list token) : list Qc :=
  match out with
  | [] => []
  | Num x :: rest => x :: numbers rest
  | _ :: rest => numbers rest
  end.

(** The texts a piece of output shows, in order. *)
Fixpoint texts (out : list token) : list string :=
  match out with
  | [] => []
  | Text s :: rest => s :: texts rest
  | _ :: rest => texts rest
  end.

(** A call that, when it returns, leaves the object as it found it, and
    that is never left by an exception. *)
Definition keeps {A : Type} (m : call A) : Prop :=
  forall b : Bond,
    match m b with
    | Returned _ after _ => after = b
    | Thrown _ => False
    | Unfinished => True
    end.

(** Whether the test [fabs(diff) < tol] of [calculate_ytm] succeeds at the
    rate [mid]. *)
Definition within_tolerance (b : Bond) (tol mid : Qc) : Prop :=
  fabs (market_price b - calculate_present_value b mid) < tol.

(** The midpoints the loop of [calculate_ytm] computes, in order: [n]
    iterations are left. *)
Fixpoint ytm_midpoints (b : Bond) (tol : Qc) (n : nat) (low high : Qc)
  : list Qc :=
  match n with
  | O => []
  | S n' =>
      let mid := (low + high) / dec 2 1 in
      let pv := calculate_present_value b mid in
      let diff := market_price b - pv in
      if ltb (fabs diff) tol then [mid]
      else if ltb pv (market_price b)
           then mid :: ytm_midpoints b tol n' low mid
           else mid :: ytm_midpoints b tol n' mid high
  end.

(** The sum of a list of amounts. *)
Definition total (l : list Qc) : Qc := fold_right Qcplus 0 l.

(** The example bond offered far above and far below every price the search
    interval can produce. *)
Definition dear_bond : Bond :=
  mkBond (dec 1000 1) (dec 6 100) (dec 2000 1) 10 2 unset_yield.

Definition cheap_bond : Bond :=
  mkBond (dec 1000 1) (dec 6 100) (dec 1 1) 10 2 unset_yield.

(** The bond of the worked example: face value 1000, coupon rate 6%, price
    950, ten years, two payments a year, yield left to be solved. *)
Definition example_bond : Bond :=
  mkBond (dec 1000 1) (dec 6 100) (dec 950 1) 10 2 unset_yield.

(** The same bond with a required yield of 7% entered by the user. *)
Definition resolved_bond : Bond := with_required_yield (dec 7 100) example_bond.

(** A par bond: face value and price 1000, coupon rate 5%, five annual
    payments; its yield is the coupon rate. *)
Definition par_bond : Bond :=
  mkBond (dec 1000 1) (dec 5 100) (dec 1000 1) 5 1 (dec 5 100).

(** A bond with no period left. *)
Definition matured_bond : Bond :=
  mkBond (dec 1000 1) (dec 6 100) (dec 950 1) 0 2 (dec 7 100).

(** * Properties *)

(** ** From canonical rationals to [Q]

    Orders and equations on [Qc] are carried to [Q], where [lra] and [nra]
    decide them; the image of an operation is the operation on the images. *)

Lemma this_plus (x y : Qc) : (this (x + y) == this x + this y)%Q.
Proof. apply Qred_correct. Qed.

Lemma this_mult (x y : Qc) : (this (x * y) == this x * this y)%Q.
Proof. apply Qred_correct. Qed.

Lemma this_opp (x : Qc) : (this (- x) == - this x)%Q.
Proof. apply Qred_correct. Qed.

Lemma this_minus (x y : Qc) : (this (x - y) == this x - this y)%Q.
Proof. unfold Qcminus. rewrite this_plus, this_opp. reflexivity. Qed.

Lemma this_inv (x : Qc) : (this (/ x) == / this x)%Q.
Proof. apply Qred_correct. Qed.

Lemma this_div (x y : Qc) : (this (x / y) == this x / this y)%Q.
Proof. unfold Qcdiv. rewrite this_mult, this_inv. reflexivity. Qed.

Lemma this_Q2Qc (q : Q) : (this (Q2Qc q) == q)%Q.
Proof. apply Qred_correct. Qed.

Lemma this_dec (n : Z) (d : positive) : (this (dec n d) == n # d)%Q.
Proof. apply Qred_correct. Qed.

Lemma this_of_int (z : Z) : (this (of_int z) == inject_Z z)%Q.
Proof. apply Qred_correct. Qed.

Lemma this_half (x : Qc) : (this (x / dec 2 1) == this x * (1 # 2))%Q.
Proof. rewrite this_div, this_dec. reflexivity. Qed.

Lemma Qc_eq_this (x y : Qc) : x = y <-> (this x == this y)%Q.
Proof.
  split; intro H.
  - rewrite H. reflexivity.
  - apply Qc_is_canon, H.
Qed.

Ltac push_this :=
  repeat first
    [ rewrite this_half | rewrite this_plus | rewrite this_minus | rewrite this_mult
    | rewrite this_opp | rewrite this_div | rewrite this_inv
    | rewrite this_dec | rewrite this_of_int | rewrite this_Q2Qc ].

Ltac push_this_in H :=
  repeat first
    [ rewrite this_half in H | rewrite this_plus in H
    | rewrite this_minus in H
    | rewrite this_mult in H | rewrite this_opp in H
    | rewrite this_div in H | rewrite this_inv in H
    | rewrite this_dec in H | rewrite this_of_int in H
    | rewrite this_Q2Qc in H ].

(** Every order or equation on [Qc] in the context and the goal becomes one
    on [Q] over the images of the atoms. *)
Ltac to_Q :=
  repeat match goal with
         | H : @eq Qc _ _ |- _ => apply Qc_eq_this in H
         | H : ~ @eq Qc _ _ |- _ => rewrite Qc_eq_this in H
         end;
  try apply Qc_eq_this;
  unfold Qclt, Qcle in *;
  repeat match goal with
         | H : context [this (_ _)] |- _ => progress push_this_in H
         end;
  push_this.

Lemma ltb_lt (x y : Qc) : ltb x y = true <-> x < y.
Proof.
  unfold ltb. rewrite Qclt_alt.
  destruct (x ?= y); split; congruence.
Qed.

Lemma ltb_ge (x y : Qc) : ltb x y = false <-> y <= x.
Proof.
  unfold ltb. destruct (x ?= y) eqn:E.
  - apply Qceq_alt in E. subst y. split; intros _; [apply Qcle_refl | reflexivity].
  - apply Qclt_alt in E. split; intro H; [discriminate |].
    exfalso. exact (Qclt_not_le _ _ E H).
  - apply Qcgt_alt in E. split; intros _; [| reflexivity].
    apply Qclt_le_weak. exact E.
Qed.

Lemma leb_le (x y : Qc) : leb x y = true <-> x <= y.
Proof.
  unfold leb. rewrite Qcle_alt.
  destruct (x ?= y); split; congruence.
Qed.

Lemma eqb_eq (x y : Qc) : eqb x y = true <-> x = y.
Proof.
  unfold eqb. split.
  - apply Qc_eq_bool_correct.
  - intros ->. unfold Qc_eq_bool. destruct (Qc_eq_dec y y); congruence.
Qed.

(** ** The break-even loop *)

Section BreakEven.

Variable b : Bond.
Variable reference_price : Qc.

Let step := be_step b reference_price.
Let loop := be_loop b reference_price.

Lemma width_pos (k : nat) : 0 < width k.
Proof.
  unfold width. induction k as [|k IH]; simpl.
  - reflexivity.
  - to_Q. lra.
Qed.

Lemma be_step_width (s : be_state) :
  be_high (step s) - be_low (step s) = (be_high s - be_low s) / dec 2 1.
Proof.
  unfold step, be_step.
  destruct (ltb _ reference_price); simpl; to_Q; lra.
Qed.

Lemma be_inv_init : be_inv 0 be_init.
Proof.
  split; simpl; try reflexivity; try discriminate.
  intros H. contradiction H. reflexivity.
Qed.

Lemma be_inv_step (k : nat) (s : be_state) :
  be_inv k s -> be_inv (S k) (step s).
Proof.
  intros [Hk Hw Hl Hh _].
  pose proof (width_pos k) as Hpos.
  rewrite <- Hw in Hpos.
  split.
  - unfold step, be_step. destruct (ltb _ reference_price); simpl; congruence.
  - rewrite be_step_width, Hw. unfold width. simpl. to_Q. lra.
  - unfold step, be_step.
    destruct (ltb _ reference_price); simpl; to_Q; lra.
  - unfold step, be_step.
    destruct (ltb _ reference_price); simpl; to_Q; lra.
  - intros _. unfold step, be_step.
    destruct (ltb _ reference_price); simpl;
      (eexists; split; [reflexivity | split; to_Q; lra]).
Qed.

Lemma be_guard_width (k : nat) (s : be_state) :
  be_inv k s -> be_guard s = ltb (dec 1 1000000) (width k).
Proof. intros [_ Hw _ _ _]. unfold be_guard. rewrite Hw. reflexivity. Qed.

Lemma guard_open (k : nat) :
  (k < 20)%nat -> ltb (dec 1 1000000) (width k) = true.
Proof.
  intros Hk.
  do 20 (destruct k as [|k]; [vm_compute; reflexivity |]).
  lia.
Qed.

Lemma guard_closed : ltb (dec 1 1000000) (width 20) = false.
Proof. vm_compute. reflexivity. Qed.

Lemma be_loop_unfold (fuel : nat) (s : be_state) :
  be_loop b reference_price (S fuel) s
  = if be_guard s
    then be_loop b reference_price fuel (step s)
    else Some s.
Proof. reflexivity. Qed.

(** From [k] executions on, the loop runs up to the twentieth and stops
    there, whatever the comparisons with the price decide. *)
Lemma be_loop_runs (d : nat) :
  forall (k : nat) (s : be_state) (extra : nat),
    (k + d = 20)%nat -> be_inv k s ->
    exists s', loop (S d + extra) s = Some s' /\ be_inv 20 s'.
Proof.
  induction d as [|d IH]; intros k s extra Hk Hinv.
  - replace k with 20%nat in * by lia.
    exists s. split; [| exact Hinv].
    unfold loop. change (1 + extra)%nat with (S extra).
    rewrite be_loop_unfold.
    rewrite (be_guard_width 20 s Hinv), guard_closed.
    reflexivity.
  - unfold loop. change (S (S d) + extra)%nat with (S (S d + extra)).
    rewrite be_loop_unfold.
    rewrite (be_guard_width k s Hinv), guard_open by lia.
    apply (IH (S k)); [lia | apply be_inv_step, Hinv].
Qed.

End BreakEven.

Lemma break_even_result (b : Bond) (reference_price : Qc) (extra : nat) :
  exists (s : be_state) (mid : Qc),
    be_loop b reference_price (21 + extra) be_init = Some s
    /\ be_inv 20 s
    /\ calculate_break_even_yield (21 + extra) b reference_price = Some mid
    /\ 0 <= mid /\ mid <= 1.
Proof.
  destruct (be_loop_runs b reference_price 20 0 be_init extra eq_refl
              be_inv_init) as [s [Hloop Hinv]].
  destruct (inv_mid _ _ Hinv) as [m [Hm [Hlo Hhi]]]; [discriminate |].
  exists s, m.
  split; [exact Hloop |]. split; [exact Hinv |].
  split.
  - unfold calculate_break_even_yield.
    change (21 + extra)%nat with (S 20 + extra)%nat.
    rewrite Hloop. exact Hm.
  - pose proof (inv_low _ _ Hinv). pose proof (inv_high _ _ Hinv).
    split; to_Q; lra.
Qed.

(** C10.  [calculate_break_even_yield] terminates although its loop has no
    iteration cap: the interval is [0, 1] at the start, of width 1, every
    execution of the body halves the width, the guard [high - low > 1e-6]
    fails after exactly 20 executions for every bond and every reference
    price (so 21 guard tests are enough fuel, and more change nothing), and
    the rate returned lies in [0, 1]. *)
Theorem break_even_terminates :
  forall (b : Bond) (reference_price : Qc) (extra : nat),
    be_high be_init - be_low be_init = 1
    /\ (forall s : be_state,
          be_high (be_step b reference_price s)
          - be_low (be_step b reference_price s)
          = (be_high s - be_low s) / dec 2 1)
    /\ exists (s : be_state) (mid : Qc),
         be_loop b reference_price (21 + extra) be_init = Some s
         /\ be_steps s = 20%nat
         /\ be_guard s = false
         /\ calculate_break_even_yield (21 + extra) b reference_price
            = Some mid
         /\ 0 <= mid /\ mid <= 1.
Proof.
  intros b reference_price extra.
  split; [reflexivity |].
  split; [apply be_step_width |].
  destruct (break_even_result b reference_price extra)
    as [s [mid [Hloop [Hinv [Hres Hrange]]]]].
  exists s, mid.
  split; [exact Hloop |].
  split; [exact (inv_steps _ _ Hinv) |].
  split; [rewrite (be_guard_width 20 s Hinv); exact guard_closed |].
  split; [exact Hres | exact Hrange].
Qed.

(** ** Discounting *)

Lemma power_pos (x : Qc) (n : nat) : 0 < x -> 0 < x ^ n.
Proof.
  intros Hx. induction n as [|n IH]; simpl.
  - reflexivity.
  - to_Q. nra.
Qed.

Lemma power_lt (x y : Qc) (n : nat) :
  0 < x -> x < y -> n <> O -> x ^ n < y ^ n.
Proof.
  intros Hx Hxy Hn. destruct n as [|n]; [contradiction Hn; reflexivity |].
  clear Hn. induction n as [|n IH].
  - simpl. to_Q. lra.
  - pose proof (power_pos x (S n) Hx) as Hp.
    change (x ^ S (S n)) with (x * x ^ S n).
    change (y ^ S (S n)) with (y * y ^ S n).
    to_Q. nra.
Qed.

Lemma pow_pos (x : Qc) (t : Z) : 0 < x -> (0 < t)%Z -> 0 < pow x t.
Proof.
  intros Hx Ht. destruct t as [|p|p]; try lia.
  simpl. apply power_pos, Hx.
Qed.

Lemma pow_lt (x y : Qc) (t : Z) :
  0 < x -> x < y -> (0 < t)%Z -> pow x t < pow y t.
Proof.
  intros Hx Hxy Ht. destruct t as [|p|p]; try lia.
  simpl. apply power_lt; trivial.
  pose proof (Pos2Nat.is_pos p). lia.
Qed.

Lemma div_lt_anti (a x y : Qc) : 0 < a -> 0 < x -> x < y -> a / y < a / x.
Proof.
  intros Ha Hx Hxy. to_Q.
  assert (Hy : (0 < this y)%Q) by lra.
  pose proof (proj1 (Qinv_lt_contravar (this x) (this y) Hx Hy) Hxy) as Hi.
  unfold Qdiv. nra.
Qed.

Lemma div_le_anti (a x y : Qc) : 0 <= a -> 0 < x -> x < y -> a / y <= a / x.
Proof.
  intros Ha Hx Hxy. to_Q.
  assert (Hy : (0 < this y)%Q) by lra.
  pose proof (proj1 (Qinv_lt_contravar (this x) (this y) Hx Hy) Hxy) as Hi.
  unfold Qdiv. nra.
Qed.

Lemma of_int_pos (z : Z) : (0 < z)%Z -> 0 < of_int z.
Proof.
  intros Hz. to_Q. change 0%Q with (inject_Z 0). rewrite <- Zlt_Qlt. exact Hz.
Qed.

Lemma above_bound (b : Bond) (rate : Qc) :
  (0 < payment_frequency b)%Z -> 0 <= rate ->
  - of_int (payment_frequency b) < rate.
Proof.
  intros Hf Hr. apply of_int_pos in Hf. to_Q. lra.
Qed.

Lemma accumulate_le (f g : Z -> Qc) (n : nat) :
  forall (t : Z) (a c : Qc),
    (1 <= t)%Z -> (forall u, (1 <= u)%Z -> f u <= g u) -> a <= c ->
    accumulate f n t a <= accumulate g n t c.
Proof.
  induction n as [|n IH]; intros t a c Ht Hfg Hac; simpl.
  - exact Hac.
  - apply IH; [lia | exact Hfg |].
    specialize (Hfg t Ht). to_Q. lra.
Qed.

Section Monotone.

Variable b : Bond.
Hypothesis face_pos : 0 < face_value b.
Hypothesis coupon_nonneg : 0 <= coupon_rate b.
Hypothesis freq_pos : (0 < payment_frequency b)%Z.
Hypothesis periods_pos : (1 <= periods b)%Z.

Lemma coupon_nonneg' : 0 <= calculate_coupon b.
Proof.
  unfold calculate_coupon.
  pose proof (of_int_pos _ freq_pos) as Hf.
  pose proof face_pos as HF. pose proof coupon_nonneg as Hc.
  to_Q. unfold Qdiv.
  pose proof (Qinv_lt_0_compat _ Hf).
  apply Qmult_le_0_compat; [apply Qmult_le_0_compat |]; lra.
Qed.

Lemma growth_pos (rate : Qc) :
  - of_int (payment_frequency b) < rate -> 0 < growth b rate.
Proof.
  intros Hr. unfold growth.
  pose proof (of_int_pos _ freq_pos) as Hf.
  to_Q.
  assert (H : (- (1) < this rate / inject_Z (payment_frequency b))%Q).
  { apply Qlt_shift_div_l; lra. }
  simpl. lra.
Qed.

Lemma growth_lt (rate1 rate2 : Qc) :
  rate1 < rate2 -> growth b rate1 < growth b rate2.
Proof.
  intros Hr. unfold growth.
  pose proof (of_int_pos _ freq_pos) as Hf.
  to_Q. unfold Qdiv.
  pose proof (Qinv_lt_0_compat _ Hf). nra.
Qed.

Lemma present_value_decreasing (rate1 rate2 : Qc) :
  - of_int (payment_frequency b) < rate1 -> rate1 < rate2 ->
  calculate_present_value b rate2 < calculate_present_value b rate1.
Proof.
  intros H1 H12.
  pose proof (growth_pos rate1 H1) as Hg1.
  pose proof (growth_lt rate1 rate2 H12) as Hg.
  unfold calculate_present_value, for_periods.
  assert (Hsum :
    accumulate (fun t => calculate_coupon b / pow (growth b rate2) t)
               (Z.to_nat (periods b)) 1 0
    <= accumulate (fun t => calculate_coupon b / pow (growth b rate1) t)
                  (Z.to_nat (periods b)) 1 0).
  { apply accumulate_le; [lia | | apply Qcle_refl].
    intros u Hu. apply div_le_anti.
    - apply coupon_nonneg'.
    - apply pow_pos; [exact Hg1 | lia].
    - apply pow_lt; [exact Hg1 | exact Hg | lia]. }
  assert (Hface :
    face_value b / pow (growth b rate2) (periods b)
    < face_value b / pow (growth b rate1) (periods b)).
  { apply div_lt_anti.
    - exact face_pos.
    - apply pow_pos; [exact Hg1 | lia].
    - apply pow_lt; [exact Hg1 | exact Hg | lia]. }
  to_Q. lra.
Qed.

End Monotone.

(** ** The yield bisection *)

Lemma fabs_le (x e : Qc) : fabs x <= e <-> - e <= x /\ x <= e.
Proof.
  unfold fabs. destruct (ltb x 0) eqn:E.
  - apply ltb_lt in E. split; [intros H; split | intros [H1 H2]]; to_Q; lra.
  - apply ltb_ge in E. split; [intros H; split | intros [H1 H2]]; to_Q; lra.
Qed.

Lemma fabs_lt (x e : Qc) : fabs x < e <-> - e < x /\ x < e.
Proof.
  unfold fabs. destruct (ltb x 0) eqn:E.
  - apply ltb_lt in E. split; [intros H; split | intros [H1 H2]]; to_Q; lra.
  - apply ltb_ge in E. split; [intros H; split | intros [H1 H2]]; to_Q; lra.
Qed.

(** The rate returned lies in the interval searched. *)
Lemma ytm_loop_range (b : Bond) (tol : Qc) (n : nat) :
  forall low high mid : Qc,
    0 <= low -> low <= high -> high <= 1 -> 0 <= mid -> mid <= 1 ->
    0 <= ytm_loop b tol n low high mid /\ ytm_loop b tol n low high mid <= 1.
Proof.
  induction n as [|n IH]; intros low high mid Hl Hlh Hh Hm0 Hm1; simpl.
  - split; assumption.
  - assert (Hmid : low <= (low + high) / dec 2 1 /\
                   (low + high) / dec 2 1 <= high)
      by (split; to_Q; lra).
    destruct Hmid as [Hm2 Hm3].
    assert (0 <= (low + high) / dec 2 1 /\ (low + high) / dec 2 1 <= 1)
      as [Hm4 Hm5] by (split; to_Q; lra).
    destruct (ltb (fabs _) tol); [split; assumption |].
    destruct (ltb _ (market_price b)); apply IH; assumption.
Qed.

Lemma calculate_ytm_range (b : Bond) (tol : Qc) (max_iter : Z) :
  0 <= calculate_ytm b tol max_iter /\ calculate_ytm b tol max_iter <= 1.
Proof.
  unfold calculate_ytm. apply ytm_loop_range; to_Q; lra.
Qed.

Lemma calculate_ytm_set (b : Bond) (tol : Qc) (max_iter : Z) :
  calculate_ytm b tol max_iter <> unset_yield.
Proof.
  destruct (calculate_ytm_range b tol max_iter) as [H _].
  intros E. rewrite E in H. revert H. apply Qclt_not_le. reflexivity.
Qed.

(** ** Where the break-even loop goes *)

Section BreakEvenDirection.

Variable b : Bond.
Variable reference_price : Qc.
Hypothesis face_pos : 0 < face_value b.
Hypothesis coupon_nonneg : 0 <= coupon_rate b.
Hypothesis freq_pos : (0 < payment_frequency b)%Z.
Hypothesis periods_pos : (1 <= periods b)%Z.

Let decreasing :=
  present_value_decreasing b face_pos coupon_nonneg freq_pos periods_pos.
Let above := fun rate => above_bound b rate freq_pos.
Let price := calculate_present_value b.

(** Once a midpoint is priced below the reference, [low] takes it; every
    later midpoint is larger and priced lower still, and [high] stays 1. *)
Lemma be_loop_up (d : nat) :
  forall (k : nat) (s : be_state) (extra : nat),
    (k + d = 20)%nat -> be_inv k s ->
    be_high s = 1 -> be_mid s = Some (be_low s) ->
    price (be_low s) < reference_price ->
    exists s', be_loop b reference_price (S d + extra) s = Some s'
               /\ be_mid s' = Some (1 - width 20).
Proof.
  induction d as [|d IH]; intros k s extra Hk Hinv Hh Hm Hpv.
  - replace k with 20%nat in * by lia.
    exists s. split.
    + change (1 + extra)%nat with (S extra). rewrite be_loop_unfold.
      rewrite (be_guard_width 20 s Hinv), guard_closed. reflexivity.
    + rewrite Hm. f_equal. pose proof (inv_width _ _ Hinv) as Hw.
      rewrite Hh in Hw. to_Q. lra.
  - change (S (S d) + extra)%nat with (S (S d + extra)).
    rewrite be_loop_unfold.
    rewrite (be_guard_width k s Hinv), guard_open by lia.
    pose proof (be_inv_step b reference_price k s Hinv) as Hinv'.
    pose proof (inv_width _ _ Hinv) as Hw.
    pose proof (width_pos k) as Hpos. rewrite <- Hw in Hpos.
    pose proof (inv_low _ _ Hinv) as Hl.
    assert (Hlt : be_low s < (be_low s + be_high s) / dec 2 1)
      by (to_Q; lra).
    assert (Hbelow : price ((be_low s + be_high s) / dec 2 1)
                     < reference_price).
    { eapply Qclt_trans; [| exact Hpv].
      apply decreasing; [apply above, Hl | exact Hlt]. }
    assert (Estep : be_step b reference_price s
                    = mkBe ((be_low s + be_high s) / dec 2 1) (be_high s)
                           (Some ((be_low s + be_high s) / dec 2 1))
                           (S (be_steps s))).
    { unfold be_step. fold price.
      rewrite (proj2 (ltb_lt _ _) Hbelow). reflexivity. }
    rewrite Estep in *.
    apply (IH (S k)); simpl; trivial. lia.
Qed.

(** Once a midpoint is priced at or above the reference, [high] takes it;
    every later midpoint is smaller and priced higher still, and [low]
    stays 0. *)
Lemma be_loop_down (d : nat) :
  forall (k : nat) (s : be_state) (extra : nat),
    (k + d = 20)%nat -> be_inv k s ->
    be_low s = 0 -> be_mid s = Some (be_high s) ->
    reference_price <= price (be_high s) ->
    exists s', be_loop b reference_price (S d + extra) s = Some s'
               /\ be_mid s' = Some (width 20).
Proof.
  induction d as [|d IH]; intros k s extra Hk Hinv Hl Hm Hpv.
  - replace k with 20%nat in * by lia.
    exists s. split.
    + change (1 + extra)%nat with (S extra). rewrite be_loop_unfold.
      rewrite (be_guard_width 20 s Hinv), guard_closed. reflexivity.
    + rewrite Hm. f_equal. pose proof (inv_width _ _ Hinv) as Hw.
      rewrite Hl in Hw. to_Q. lra.
  - change (S (S d) + extra)%nat with (S (S d + extra)).
    rewrite be_loop_unfold.
    rewrite (be_guard_width k s Hinv), guard_open by lia.
    pose proof (be_inv_step b reference_price k s Hinv) as Hinv'.
    pose proof (inv_width _ _ Hinv) as Hw.
    pose proof (width_pos k) as Hpos. rewrite <- Hw in Hpos.
    assert (Hlt : (be_low s + be_high s) / dec 2 1 < be_high s)
      by (to_Q; lra).
    assert (Hm0 : 0 <= (be_low s + be_high s) / dec 2 1)
      by (rewrite Hl in *; to_Q; lra).
    assert (Habove : reference_price
                     <= price ((be_low s + be_high s) / dec 2 1)).
    { eapply Qcle_trans; [exact Hpv |]. apply Qclt_le_weak.
      apply decreasing; [apply above, Hm0 | exact Hlt]. }
    assert (Estep : be_step b reference_price s
                    = mkBe (be_low s) ((be_low s + be_high s) / dec 2 1)
                           (Some ((be_low s + be_high s) / dec 2 1))
                           (S (be_steps s))).
    { unfold be_step. fold price.
      rewrite (proj2 (ltb_ge _ _) Habove). reflexivity. }
    rewrite Estep in *.
    apply (IH (S k)); simpl; trivial. lia.
Qed.

(** The break-even loop of a bond whose price falls with the rate never
    closes in on a rate in between: the first comparison, at 1/2, decides
    which end of [0, 1] it runs to. *)
Lemma break_even_runs_to_an_end (extra : nat) :
  calculate_break_even_yield (21 + extra) b reference_price
  = if ltb (price (dec 1 2)) reference_price
    then Some (1 - width 20)
    else Some (width 20).
Proof.
  unfold calculate_break_even_yield.
  change (21 + extra)%nat with (S (20 + extra)).
  rewrite be_loop_unfold.
  rewrite (be_guard_width 0 be_init be_inv_init), guard_open by lia.
  pose proof (be_inv_step b reference_price 0 be_init be_inv_init) as Hinv.
  assert (Ehalf : (be_low be_init + be_high be_init) / dec 2 1 = dec 1 2)
    by (apply Qc_is_canon; vm_compute; reflexivity).
  unfold be_step in Hinv |- *. rewrite Ehalf in Hinv |- *.
  fold price in Hinv |- *.
  destruct (ltb (price (dec 1 2)) reference_price) eqn:E.
  - apply ltb_lt in E.
    destruct (be_loop_up 19 1 _ extra eq_refl Hinv eq_refl eq_refl E)
      as [s' [Hloop Hmid]].
    change (20 + extra)%nat with (S 19 + extra)%nat.
    rewrite Hloop. exact Hmid.
  - apply ltb_ge in E.
    destruct (be_loop_down 19 1 _ extra eq_refl Hinv eq_refl eq_refl E)
      as [s' [Hloop Hmid]].
    change (20 + extra)%nat with (S 19 + extra)%nat.
    rewrite Hloop. exact Hmid.
Qed.

End BreakEvenDirection.

(** ** Strict monotonicity and rounding *)

(** On binary64 the price depends on the rate through the rounded discount
    base alone. *)
Lemma same_base_same_price (d : Binary64.Bond) (x y : float) :
  Binary64.growth d x = Binary64.growth d y ->
  Binary64.calculate_present_value d x = Binary64.calculate_present_value d y.
Proof.
  intros E. unfold Binary64.calculate_present_value. rewrite E. reflexivity.
Qed.

(** C5, as the specification has it, fails on the doubles of the code.  The
    rates 0 and 2^-57 are both above -2 and differ, but at two payments a
    year both give the discount base 1, hence the same price, for the bond
    with face value 1000, coupon rate 1/16 and ten years.  In the same way
    the rates 2 - 2^-52 and 2 both give the base 2 and the price 184 for the
    bond with face value 1024, coupon rate 1/4 and two years. *)
Lemma equal_prices_at_distinct_rates :
  PrimFloat.ltb (-2)%float 0%float = true
  /\ PrimFloat.ltb 0%float 0x1p-57%float = true
  /\ Binary64.calculate_present_value Binary64.plain_bond 0%float
     = Binary64.calculate_present_value Binary64.plain_bond 0x1p-57%float
  /\ PrimFloat.ltb
       (Binary64.calculate_present_value Binary64.plain_bond 0x1p-57%float)
       (Binary64.calculate_present_value Binary64.plain_bond 0%float)
     = false
  /\ PrimFloat.ltb 0x1.fffffffffffffp+0%float 2%float = true
  /\ Binary64.calculate_present_value Binary64.steep_bond
       0x1.fffffffffffffp+0%float
     = 184%float
  /\ Binary64.calculate_present_value Binary64.steep_bond 2%float
     = 184%float.
Proof. repeat split; vm_compute; reflexivity. Qed.

(** C5, as the code has it.  The price formula, evaluated exactly, is
    strictly decreasing in the rate: for a bond with positive face value,
    non-negative coupon rate, a positive payment frequency and at least one
    period, and rates [-payment_frequency < rate1 < rate2], the price at
    [rate1] is strictly above the price at [rate2].  Evaluated on doubles,
    the price depends on the rate only through the rounded discount base
    [1 + rate / payment_frequency]: rates with the same base get the same
    price, so there the price is not strictly decreasing. *)
Theorem present_value_decreasing_up_to_rounding :
  forall (b : Bond) (rate1 rate2 : Qc),
    0 < face_value b ->
    0 <= coupon_rate b ->
    (0 < payment_frequency b)%Z ->
    (1 <= periods b)%Z ->
    - of_int (payment_frequency b) < rate1 ->
    - of_int (payment_frequency b) < rate2 ->
    rate1 < rate2 ->
    calculate_present_value b rate1 > calculate_present_value b rate2
    /\ forall (d : Binary64.Bond) (x y : float),
         Binary64.growth d x = Binary64.growth d y ->
         Binary64.calculate_present_value d x
         = Binary64.calculate_present_value d y.
Proof.
  intros b rate1 rate2 HF Hc Hf Hp H1 _ H12.
  split; [apply present_value_decreasing; assumption |].
  exact same_base_same_price.
Qed.

Lemma present_value_decreasing_up_to_rounding_witness :
  calculate_present_value example_bond (dec 5 100)
  > calculate_present_value example_bond (dec 6 100).
Proof.
  apply (present_value_decreasing_up_to_rounding
           example_bond (dec 5 100) (dec 6 100)).
  - reflexivity.
  - vm_compute. discriminate.
  - reflexivity.
  - vm_compute. discriminate.
  - reflexivity.
  - reflexivity.
  - reflexivity.
Defined.

(** ** Present value *)

Lemma present_value_no_period (b : Bond) (rate : Qc) :
  periods b = 0%Z -> calculate_present_value b rate = face_value b.
Proof.
  intros Hp. unfold calculate_present_value, for_periods.
  rewrite Hp. simpl. field. discriminate.
Qed.

(** C3, as the code has it.  No operation validates its input and none
    raises an error.  With no period left ([remaining_years] or
    [payment_frequency] zero, or any other product zero) the coupon loop does
    not run, [pow] at exponent 0 is 1, and the present value returned is the
    face value, at every rate. *)
Theorem present_value_without_periods :
  forall (b : Bond) (rate : Qc),
    periods b = 0%Z ->
    const_call (fun b => calculate_present_value b rate) b
    = Returned (face_value b) b [].
Proof.
  intros b rate Hp. unfold const_call.
  rewrite (present_value_no_period b rate Hp). reflexivity.
Qed.

Lemma present_value_without_periods_witness :
  periods matured_bond = 0%Z
  /\ const_call (fun b => calculate_present_value b (dec 7 100)) matured_bond
     = Returned (face_value matured_bond) matured_bond [].
Proof.
  split.
  - reflexivity.
  - apply (present_value_without_periods matured_bond (dec 7 100)).
    reflexivity.
Defined.

(** C3, as the specification has it, fails: for the bond with
    [remaining_years = 0] the call returns the face value, 1000, and is not
    left by an exception. *)
Lemma zero_periods_not_rejected :
  remaining_years matured_bond = 0%Z
  /\ periods matured_bond = 0%Z
  /\ const_call (fun b => calculate_present_value b (dec 7 100)) matured_bond
     = Returned (dec 1000 1) matured_bond []
  /\ ~ (exists what : string,
          const_call (fun b => calculate_present_value b (dec 7 100))
                     matured_bond
          = Thrown what).
Proof.
  split; [reflexivity |]. split; [reflexivity |]. split.
  - unfold const_call.
    rewrite (present_value_no_period matured_bond (dec 7 100) eq_refl).
    reflexivity.
  - intros [what H]. discriminate H.
Qed.

(** ** Current yield *)

(** C7.  The current yield is the periodic coupon over the market price,
    [(face_value * coupon_rate / payment_frequency) / market_price]: the
    coupon of one period, not of one year.  For the example bond, with two
    payments a year, it is 30 / 950 = 3/95, where the annual coupon over the
    price would be 6/95. *)
Theorem current_yield_is_periodic :
  forall b : Bond,
    calculate_current_yield b
    = (face_value b * coupon_rate b / of_int (payment_frequency b))
      / market_price b
    /\ calculate_current_yield b = calculate_coupon b / market_price b
    /\ calculate_current_yield example_bond = dec 3 95
    /\ face_value example_bond * coupon_rate example_bond
       / market_price example_bond = dec 6 95.
Proof.
  intros b. split; [reflexivity |]. split; [reflexivity |].
  split; apply Qc_is_canon; vm_compute; reflexivity.
Qed.

(** ** The worked example *)

Lemma example_ytm :
  calculate_ytm example_bond default_tol default_max_iter
  = dec 143750455 2147483648.
Proof. apply Qc_is_canon. vm_compute. reflexivity. Qed.


Lemma example_break_even :
  calculate_break_even_yield 21 example_bond (market_price example_bond)
  = Some (dec 1048575 1048576).
Proof.
  destruct (break_even_result example_bond (market_price example_bond) 0)
    as [s [mid [_ [_ [E _]]]]].
  simpl plus in E. rewrite E. f_equal. apply Qc_is_canon.
  assert (H : option_map this
                (calculate_break_even_yield 21 example_bond
                   (market_price example_bond))
              = Some (1048575 # 1048576)%Q)
    by (vm_compute; reflexivity).
  rewrite E in H. simpl in H. injection H as H. rewrite H. reflexivity.
Qed.

(** C1 on the example bond.  The break-even bisection moves [low] up where
    the price at the midpoint is below the reference price, the opposite of
    what [calculate_ytm] does, so with the market price as reference it runs
    away from the yield: it returns 1048575/1048576 = 1 - 2^-20, while the
    yield to maturity is 143750455/2^31 (about 0.06694), more than 1e-5
    away. *)
Theorem break_even_leaves_ytm :
  calculate_break_even_yield 21 example_bond (market_price example_bond)
  = Some (dec 1048575 1048576)
  /\ calculate_ytm example_bond default_tol default_max_iter
     = dec 143750455 2147483648
  /\ dec 1 100000 < fabs (dec 1048575 1048576 - dec 143750455 2147483648).
Proof.
  split; [exact example_break_even |].
  split; [exact example_ytm |].
  vm_compute. reflexivity.
Qed.

(** ** The round trip through the yield *)









(** ** Price sensitivity *)

Lemma sensitivity_loop_in (b : Bond) (fuel : nat) (i : Qc) :
  leb i (of_int 2 * yield_change) = true ->
  sensitivity_loop b (S fuel) i
  = match sensitivity_loop b fuel (i + yield_change) with
    | Some rows =>
        Some ((required_yield b + i,
               calculate_present_value b (required_yield b + i)) :: rows)
    | None => None
    end.
Proof. intros H. simpl. rewrite H. reflexivity. Qed.

Lemma sensitivity_loop_out (b : Bond) (fuel : nat) (i : Qc) :
  leb i (of_int 2 * yield_change) = false ->
  sensitivity_loop b (S fuel) i = Some [].
Proof. intros H. simpl. rewrite H. reflexivity. Qed.

Lemma price_sensitivity_rows_eq (b : Bond) (extra : nat) :
  price_sensitivity_rows (6 + extra) b
  = Some (map (fun k : Z =>
                 (required_yield b + of_int k * dec 5 1000,
                  calculate_present_value b
                    (required_yield b + of_int k * dec 5 1000)))
              [-2; -1; 0; 1; 2]%Z).
Proof.
  unfold price_sensitivity_rows.
  change (6 + extra)%nat with (S (S (S (S (S (S extra)))))).
  do 5 (rewrite sensitivity_loop_in by (vm_compute; reflexivity)).
  rewrite sensitivity_loop_out by (vm_compute; reflexivity).
  simpl map.
  replace (of_int (-2) * yield_change + yield_change)
    with (of_int (-1) * dec 5 1000)
    by (apply Qc_is_canon; vm_compute; reflexivity).
  replace (of_int (-1) * dec 5 1000 + yield_change)
    with (of_int 0 * dec 5 1000)
    by (apply Qc_is_canon; vm_compute; reflexivity).
  replace (of_int 0 * dec 5 1000 + yield_change)
    with (of_int 1 * dec 5 1000)
    by (apply Qc_is_canon; vm_compute; reflexivity).
  replace (of_int 1 * dec 5 1000 + yield_change)
    with (of_int 2 * dec 5 1000)
    by (apply Qc_is_canon; vm_compute; reflexivity).
  reflexivity.
Qed.

(** C8.  The price-sensitivity report evaluates the present value at the
    five yields [required_yield + k * 0.005], [k] from -2 to 2, in this
    order, and prints exactly these five (yield, price) pairs; the loop on
    the double [i] stops at its sixth test, for every bond. *)
Theorem price_sensitivity_five_pairs :
  forall (b : Bond) (extra : nat),
    let pairs :=
      map (fun k : Z =>
             (required_yield b + of_int k * dec 5 1000,
              calculate_present_value b
                (required_yield b + of_int k * dec 5 1000)))
          [-2; -1; 0; 1; 2]%Z in
    price_sensitivity_rows (6 + extra) b = Some pairs
    /\ List.length pairs = 5%nat
    /\ display_price_sensitivity (6 + extra) b
       = Some (Text ("Price Sensitivity Analysis:" ++ nl)
               :: flat_map print_sensitivity_row pairs).
Proof.
  intros b extra pairs.
  split; [apply price_sensitivity_rows_eq |].
  split; [reflexivity |].
  unfold display_price_sensitivity.
  rewrite price_sensitivity_rows_eq. reflexivity.
Qed.

(** ** The unset yield *)

Lemma required_yield_set_after (b : Bond) :
  match calculate_required_yield b with
  | Returned _ after _ => required_yield after <> unset_yield
  | Thrown _ => False
  | Unfinished => False
  end.
Proof.
  unfold calculate_required_yield.
  destruct (eqb (required_yield b) unset_yield) eqn:E.
  - simpl. apply calculate_ytm_set.
  - intros H. apply eqb_eq in H. congruence.
Qed.

Lemma growth_unset (b : Bond) :
  required_yield b = unset_yield ->
  growth b (required_yield b) = 1 - 1 / of_int (payment_frequency b).
Proof.
  intros H. rewrite H. unfold growth, unset_yield.
  apply Qc_is_canon. push_this. unfold Qdiv. simpl. ring.
Qed.

(** C2, as the specification has it, fails: on the example bond, whose
    required yield is the sentinel -1, the duration and convexity calls
    return the numbers their formulas give at the rate -1 (discount base
    1/2), and are not left by an exception. *)
Lemma unset_yield_not_rejected :
  required_yield example_bond = unset_yield
  /\ const_call calculate_macaulay_duration example_bond
     = Returned (dec 443337934 19) example_bond []
  /\ const_call calculate_modified_duration example_bond
     = Returned (dec 886675868 19) example_bond []
  /\ const_call calculate_convexity example_bond
     = Returned (dec 1955516976 1) example_bond []
  /\ ~ (exists what : string,
          const_call calculate_macaulay_duration example_bond = Thrown what).
Proof.
  split; [reflexivity |].
  split; [unfold const_call; f_equal; apply Qc_is_canon;
          vm_compute; reflexivity |].
  split; [unfold const_call; f_equal; apply Qc_is_canon;
          vm_compute; reflexivity |].
  split; [unfold const_call; f_equal; apply Qc_is_canon;
          vm_compute; reflexivity |].
  intros [what H]. discriminate H.
Qed.

(** C2, as the code has it.  No operation checks [required_yield] and none
    raises an error: invoked while the field holds the sentinel -1, the
    durations, the convexity and the scenario and frequency reports return
    what their formulas give with -1 as the rate, the discount base being
    [1 - 1 / payment_frequency].  The sentinel is removed only by
    [calculate_required_yield], after which the field is never -1. *)
Theorem unset_yield_is_computed_with :
  forall b : Bond,
    required_yield b = unset_yield ->
    growth b (required_yield b) = 1 - 1 / of_int (payment_frequency b)
    /\ const_call calculate_macaulay_duration b
       = Returned
           ((for_periods b
               (fun t => of_int t * calculate_coupon b
                         / pow (1 - 1 / of_int (payment_frequency b)) t)
             + of_int (periods b) * face_value b
               / pow (1 - 1 / of_int (payment_frequency b)) (periods b))
            / market_price b)
           b []
    /\ const_call calculate_modified_duration b
       = Returned
           (calculate_macaulay_duration b
            / (1 - 1 / of_int (payment_frequency b)))
           b []
    /\ const_call calculate_convexity b
       = Returned
           ((for_periods b
               (fun t => of_int (t * (t + 1)) * calculate_coupon b
                         / pow (1 - 1 / of_int (payment_frequency b))
                               (t + 2))
             + of_int (periods b * (periods b + 1)) * face_value b
               / pow (1 - 1 / of_int (payment_frequency b)) (periods b + 2))
            / market_price b)
           b []
    /\ const_print display_scenario_analysis b
       = Returned tt b (display_scenario_analysis b)
    /\ const_print display_frequency_analysis b
       = Returned tt b (display_frequency_analysis b)
    /\ match calculate_required_yield b with
       | Returned _ after _ =>
           required_yield after
           = calculate_ytm b default_tol default_max_iter
           /\ required_yield after <> unset_yield
       | Thrown _ => False
       | Unfinished => False
       end.
Proof.
  intros b H.
  pose proof (growth_unset b H) as Hg.
  split; [exact Hg |].
  split; [unfold const_call, calculate_macaulay_duration;
          rewrite Hg; reflexivity |].
  split; [unfold const_call, calculate_modified_duration;
          rewrite Hg; reflexivity |].
  split; [unfold const_call, calculate_convexity; rewrite Hg; reflexivity |].
  split; [reflexivity |].
  split; [reflexivity |].
  pose proof (required_yield_set_after b) as Hset.
  unfold calculate_required_yield in *.
  assert (E : eqb (required_yield b) unset_yield = true)
    by (apply eqb_eq; exact H).
  rewrite E in *. simpl in *. split; [reflexivity | exact Hset].
Qed.

Lemma unset_yield_is_computed_with_witness :
  required_yield example_bond = unset_yield
  /\ growth example_bond (required_yield example_bond)
     = 1 - 1 / of_int (payment_frequency example_bond).
Proof.
  split.
  - reflexivity.
  - apply (unset_yield_is_computed_with example_bond). reflexivity.
Defined.

(** ** Scenario analysis *)

Lemma not_in_numbers (x : Qc) (l : list Qc) :
  existsb (eqb x) l = false -> ~ In x l.
Proof.
  intros H Hin.
  assert (E : existsb (eqb x) l = true).
  { apply existsb_exists. exists x. split; [exact Hin |].
    apply eqb_eq. reflexivity. }
  congruence.
Qed.

(** C6, as the specification has it, fails on the current yield: the
    scenario report of the example bond at a required yield of 7% shows 25
    numbers, none of them the current yield (3/95), and no text of it names
    a current yield. *)
Lemma scenario_shows_no_current_yield :
  List.length (numbers (display_scenario_analysis resolved_bond)) = 25%nat
  /\ ~ In (calculate_current_yield resolved_bond)
          (numbers (display_scenario_analysis resolved_bond))
  /\ ~ In "Current Yield: "%string
          (texts (display_scenario_analysis resolved_bond)).
Proof.
  split; [reflexivity |].
  split.
  - apply not_in_numbers. vm_compute. reflexivity.
  - simpl. intros H.
    repeat (destruct H as [H | H]; [discriminate H |]).
    exact H.
Qed.

(** C6, as the code has it.  For each delta in -0.02, -0.01, 0, 0.01, 0.02
    the scenario report recomputes the price at [required_yield + delta],
    while Macaulay duration, modified duration and convexity are computed at
    the unshifted [required_yield] and so are the same in all five rows;
    these five figures are all a row shows (the report has no current
    yield). *)
Theorem scenario_shifts_price_only :
  forall b : Bond,
    scenario_rows b
    = map (fun delta =>
             mkScenario (required_yield b + delta)
                        (calculate_present_value b (required_yield b + delta))
                        (calculate_macaulay_duration b)
                        (calculate_modified_duration b)
                        (calculate_convexity b))
          [dec (-2) 100; dec (-1) 100; dec 0 1; dec 1 100; dec 2 100]
    /\ List.length (scenario_rows b) = 5%nat
    /\ Forall (fun r =>
                 sc_macaulay r = calculate_macaulay_duration b
                 /\ sc_modified r = calculate_modified_duration b
                 /\ sc_convexity r = calculate_convexity b)
              (scenario_rows b)
    /\ Forall (fun r =>
                 numbers (print_scenario_row r)
                 = [sc_yield r; sc_price r; sc_macaulay r; sc_modified r;
                    sc_convexity r])
              (scenario_rows b)
    /\ display_scenario_analysis b
       = Text ("Scenario Analysis:" ++ nl)
         :: flat_map print_scenario_row (scenario_rows b).
Proof.
  intros b.
  split; [reflexivity |]. split; [reflexivity |].
  split; [| split; [| reflexivity]].
  - unfold scenario_rows, scenarios. simpl map.
    repeat constructor.
  - unfold scenario_rows, scenarios. simpl map.
    repeat constructor.
Qed.

(** ** The frame of the calls *)

Lemma keeps_ret {A : Type} (a : A) : keeps (ret a).
Proof. intros b. reflexivity. Qed.

Lemma keeps_print (out : list token) : keeps (print out).
Proof. intros b. reflexivity. Qed.

Lemma keeps_const_call {A : Type} (f : Bond -> A) : keeps (const_call f).
Proof. intros b. reflexivity. Qed.

Lemma keeps_const_print (f : Bond -> list token) : keeps (const_print f).
Proof. intros b. reflexivity. Qed.

Lemma keeps_const_partial {A : Type} (f : Bond -> option A) :
  keeps (const_partial f).
Proof. intros b. unfold const_partial. destruct (f b); reflexivity. Qed.

Lemma keeps_const_partial_print (f : Bond -> option (list token)) :
  keeps (const_partial_print f).
Proof. intros b. unfold const_partial_print. destruct (f b); reflexivity. Qed.

Lemma keeps_bind {A B : Type} (m : call A) (k : A -> call B) :
  keeps m -> (forall a, keeps (k a)) -> keeps (bind m k).
Proof.
  intros Hm Hk b. unfold bind.
  specialize (Hm b). destruct (m b) as [a b1 out1 | what |]; trivial.
  subst b1. specialize (Hk a b).
  destruct (k a b) as [r b2 out2 | what |]; trivial.
Qed.

Create HintDb frame.

#[local] Hint Resolve keeps_ret keeps_print keeps_const_call keeps_const_print
  keeps_const_partial keeps_const_partial_print : frame.

Ltac frame := repeat (apply keeps_bind; [auto with frame | intros ?]);
              auto with frame.

Lemma keeps_report (fuel : nat) (i : input) : keeps (report fuel i).
Proof. unfold report. frame. Qed.

(** After the first statement of [analysis], the conditional call of the
    mutator, nothing writes to the object. *)
Lemma analysis_frame (fuel : nat) (i : input) (b : Bond) :
  match analysis fuel i b with
  | Returned _ after _ =>
      after = (if eqb (in_required_yield i) unset_yield
               then match calculate_required_yield b with
                    | Returned _ b1 _ => b1
                    | _ => b
                    end
               else b)
  | Thrown _ => False
  | Unfinished => True
  end.
Proof.
  unfold analysis, bind.
  pose proof (keeps_report fuel i) as Hk.
  destruct (eqb (in_required_yield i) unset_yield).
  - unfold calculate_required_yield.
    destruct (eqb (required_yield b) unset_yield).
    + specialize (Hk (with_required_yield
                        (calculate_ytm b default_tol default_max_iter) b)).
      destruct (report fuel i _) as [r b2 out2 | what |]; trivial.
    + specialize (Hk b).
      destruct (report fuel i b) as [r b2 out2 | what |]; trivial.
  - unfold ret. specialize (Hk b).
    destruct (report fuel i b) as [r b2 out2 | what |]; trivial.
Qed.

(** C9.  [calculate_required_yield] is the only operation that writes to
    the bond.  It returns, leaves the five other fields as they were, and
    sets [required_yield] to the solved yield exactly when the field holds
    the sentinel -1; otherwise the bond after the call is the bond before
    it.  Every other member function is [const]: each of its calls leaves
    the whole bond as it found it, and so does the sequence of calls [main]
    makes after resolving the yield. *)
Theorem only_required_yield_is_written :
  forall (b : Bond) (fuel : nat) (i : input),
    match calculate_required_yield b with
    | Returned _ after _ =>
        face_value after = face_value b
        /\ coupon_rate after = coupon_rate b
        /\ market_price after = market_price b
        /\ remaining_years after = remaining_years b
        /\ payment_frequency after = payment_frequency b
        /\ required_yield after
           = (if eqb (required_yield b) unset_yield
              then calculate_ytm b default_tol default_max_iter
              else required_yield b)
        /\ (if eqb (required_yield b) unset_yield then True else after = b)
    | Thrown _ => False
    | Unfinished => False
    end
    /\ (forall (A : Type) (f : Bond -> A),
          const_call f b = Returned (f b) b [])
    /\ (forall f : Bond -> list token,
          const_print f b = Returned tt b (f b))
    /\ (forall (A : Type) (f : Bond -> option A), keeps (const_partial f))
    /\ (forall f : Bond -> option (list token),
          keeps (const_partial_print f))
    /\ match analysis fuel i b with
       | Returned _ after _ =>
           after = (if eqb (in_required_yield i) unset_yield
                    then match calculate_required_yield b with
                         | Returned _ b1 _ => b1
                         | _ => b
                         end
                    else b)
       | Thrown _ => False
       | Unfinished => True
       end.
Proof.
  intros b fuel i.
  split.
  - unfold calculate_required_yield.
    destruct (eqb (required_yield b) unset_yield); simpl; repeat split.
  - split; [reflexivity |]. split; [reflexivity |].
    split; [intros A f; apply keeps_const_partial |].
    split; [apply keeps_const_partial_print |].
    apply analysis_frame.
Qed.

(** * Further properties of the code *)

(** ** Conversions *)

Lemma of_int_succ (z : Z) : of_int (z + 1) = of_int z + 1.
Proof. to_Q. rewrite inject_Z_plus. reflexivity. Qed.

(** ** The yield search at its edges *)

Lemma ltb_false (x y : Qc) : ~ x < y -> ltb x y = false.
Proof.
  intros H. destruct (ltb x y) eqn:E; [| reflexivity].
  apply ltb_lt in E. contradiction.
Qed.

Lemma width_succ (k : nat) : width (S k) = width k / dec 2 1.
Proof. unfold width. simpl. to_Q. lra. Qed.

Lemma width_le_one (k : nat) : width k <= 1.
Proof.
  induction k as [|k IH].
  - apply Qcle_refl.
  - rewrite width_succ. pose proof (width_pos k). to_Q. lra.
Qed.

Section Boundaries.

Variable b : Bond.
Variable tol : Qc.
Hypothesis face_pos : 0 < face_value b.
Hypothesis coupon_nonneg : 0 <= coupon_rate b.
Hypothesis freq_pos : (0 < payment_frequency b)%Z.
Hypothesis periods_pos : (1 <= periods b)%Z.
Hypothesis tol_nonneg : 0 <= tol.

Let decreasing :=
  present_value_decreasing b face_pos coupon_nonneg freq_pos periods_pos.
Let price := calculate_present_value b.

(** A price above every price of the interval: each midpoint is priced too
    low by more than the tolerance, and [high] comes down to it. *)
Lemma ytm_loop_down (n : nat) :
  price 0 + tol <= market_price b ->
  forall k : nat,
    ytm_loop b tol n 0 (width k) (width k) = width (k + n).
Proof.
  intros Hdear. induction n as [|n IH]; intros k.
  - simpl. rewrite Nat.add_0_r. reflexivity.
  - simpl ytm_loop.
    assert (Emid : (0 + width k) / dec 2 1 = width (S k))
      by (rewrite width_succ; to_Q; lra).
    rewrite Emid.
    assert (Hlow : price (width (S k)) < price 0).
    { apply decreasing; [| apply width_pos].
      apply above_bound; [exact freq_pos | apply Qcle_refl]. }
    fold price.
    rewrite ltb_false.
    + rewrite (proj2 (ltb_lt _ _)) by (to_Q; lra).
      rewrite IH. f_equal. lia.
    + intros H. apply fabs_lt in H. destruct H as [_ H]. to_Q. lra.
Qed.

(** A price below every price of the interval: each midpoint is priced too
    high by more than the tolerance, and [low] comes up to it. *)
Lemma ytm_loop_up (n : nat) :
  market_price b + tol <= price 1 ->
  forall k : nat,
    ytm_loop b tol n (1 - width k) 1 (1 - width k) = 1 - width (k + n).
Proof.
  intros Hcheap. induction n as [|n IH]; intros k.
  - simpl. rewrite Nat.add_0_r. reflexivity.
  - simpl ytm_loop.
    assert (Emid : (1 - width k + 1) / dec 2 1 = 1 - width (S k))
      by (rewrite width_succ; to_Q; lra).
    rewrite Emid.
    assert (Hin : 0 <= 1 - width (S k) /\ 1 - width (S k) < 1).
    { pose proof (width_le_one (S k)). pose proof (width_pos (S k)).
      split; to_Q; lra. }
    destruct Hin as [Hge Hlt].
    assert (Hhigh : price 1 < price (1 - width (S k))).
    { apply decreasing; [| exact Hlt].
      apply above_bound; [exact freq_pos | exact Hge]. }
    fold price.
    rewrite ltb_false.
    + rewrite ltb_false by (apply Qcle_not_lt; to_Q; lra).
      rewrite IH. f_equal. f_equal. lia.
    + intros H. apply fabs_lt in H. destruct H as [H _]. to_Q. lra.
Qed.

Lemma ytm_at_lower_end (max_iter : Z) :
  (1 <= max_iter)%Z ->
  price 0 + tol <= market_price b ->
  calculate_ytm b tol max_iter = width (Z.to_nat max_iter).
Proof.
  intros Hn Hdear. unfold calculate_ytm.
  destruct (Z.to_nat max_iter) as [|n] eqn:En; [lia |].
  simpl ytm_loop.
  assert (Emid : (0 + 1) / dec 2 1 = width 1)
    by (apply Qc_is_canon; reflexivity).
  rewrite Emid.
  assert (Hlow : price (width 1) < price 0).
  { apply decreasing; [| apply width_pos].
    apply above_bound; [exact freq_pos | apply Qcle_refl]. }
  fold price.
  rewrite ltb_false.
  - rewrite (proj2 (ltb_lt _ _)) by (to_Q; lra).
    apply (ytm_loop_down n Hdear 1).
  - intros H. apply fabs_lt in H. destruct H as [_ H]. to_Q. lra.
Qed.

Lemma ytm_at_upper_end (max_iter : Z) :
  (1 <= max_iter)%Z ->
  market_price b + tol <= price 1 ->
  calculate_ytm b tol max_iter = 1 - width (Z.to_nat max_iter).
Proof.
  intros Hn Hcheap. unfold calculate_ytm.
  destruct (Z.to_nat max_iter) as [|n] eqn:En; [lia |].
  simpl ytm_loop.
  assert (Emid : (0 + 1) / dec 2 1 = 1 - width 1)
    by (apply Qc_is_canon; reflexivity).
  rewrite Emid.
  assert (Hhigh : price 1 < price (1 - width 1)).
  { apply decreasing; [| reflexivity].
    apply above_bound; [exact freq_pos | vm_compute; discriminate]. }
  fold price.
  rewrite ltb_false.
  - rewrite ltb_false by (apply Qcle_not_lt; to_Q; lra).
    apply (ytm_loop_up n Hcheap 1).
  - intros H. apply fabs_lt in H. destruct H as [H _]. to_Q. lra.
Qed.

End Boundaries.

(** X8.  [calculate_ytm] returns a rate in the interval it searches, from
    0 to 1, for every bond, tolerance and iteration count; with
    [max_iter <= 0] the loop does not run and the initial [mid = 0.0] is
    returned. *)
Theorem ytm_within_interval :
  forall (b : Bond) (tol : Qc) (max_iter : Z),
    0 <= calculate_ytm b tol max_iter
    /\ calculate_ytm b tol max_iter <= 1
    /\ ((max_iter <= 0)%Z -> calculate_ytm b tol max_iter = 0).
Proof.
  intros b tol max_iter.
  destruct (calculate_ytm_range b tol max_iter) as [H0 H1].
  split; [exact H0 |]. split; [exact H1 |].
  intros Hn. unfold calculate_ytm.
  replace (Z.to_nat max_iter) with 0%nat by lia. reflexivity.
Qed.

Lemma ytm_within_interval_witness :
  calculate_ytm example_bond default_tol 0 = 0.
Proof.
  apply (ytm_within_interval example_bond default_tol 0).
  vm_compute. discriminate.
Defined.

(** X9.  A yield below the search interval.  For a bond with positive face
    value, non-negative coupon rate, positive payment frequency and at
    least one period, a tolerance that is not negative and at least one
    iteration: when the price at rate 0 is below the market price and the
    difference is at least the tolerance, [calculate_ytm] never meets its
    tolerance, lowers [high] at every step and returns a rate between 0 and
    [2^-max_iter], at the lower end of the interval. *)
Theorem ytm_below_interval :
  forall (b : Bond) (tol : Qc) (max_iter : Z),
    0 < face_value b ->
    0 <= coupon_rate b ->
    (0 < payment_frequency b)%Z ->
    (1 <= periods b)%Z ->
    0 <= tol ->
    (1 <= max_iter)%Z ->
    calculate_present_value b 0 < market_price b ->
    tol <= market_price b - calculate_present_value b 0 ->
    0 <= calculate_ytm b tol max_iter
    /\ calculate_ytm b tol max_iter <= width (Z.to_nat max_iter).
Proof.
  intros b tol max_iter HF Hc Hf Hp Ht Hn Hlt Hdear.
  rewrite (ytm_at_lower_end b tol HF Hc Hf Hp Ht max_iter Hn)
    by (to_Q; lra).
  split; [apply Qclt_le_weak, width_pos | apply Qcle_refl].
Qed.

Lemma ytm_below_interval_witness :
  0 <= calculate_ytm dear_bond default_tol default_max_iter
  /\ calculate_ytm dear_bond default_tol default_max_iter
     <= width (Z.to_nat default_max_iter).
Proof.
  apply (ytm_below_interval dear_bond default_tol default_max_iter).
  - reflexivity.
  - vm_compute. discriminate.
  - reflexivity.
  - vm_compute. discriminate.
  - vm_compute. discriminate.
  - vm_compute. discriminate.
  - vm_compute. reflexivity.
  - vm_compute. discriminate.
Defined.

(** X10.  A yield above the search interval.  For a bond, tolerance and
    iteration count as in X9: when the price at rate 1 is at least the
    market price and exceeds it by at least the tolerance, [calculate_ytm]
    never meets its tolerance, raises [low] at every step and returns a rate
    between [1 - 2^-max_iter] and 1, at the upper end of the interval. *)
Theorem ytm_above_interval :
  forall (b : Bond) (tol : Qc) (max_iter : Z),
    0 < face_value b ->
    0 <= coupon_rate b ->
    (0 < payment_frequency b)%Z ->
    (1 <= periods b)%Z ->
    0 <= tol ->
    (1 <= max_iter)%Z ->
    market_price b <= calculate_present_value b 1 ->
    tol <= calculate_present_value b 1 - market_price b ->
    1 - width (Z.to_nat max_iter) <= calculate_ytm b tol max_iter
    /\ calculate_ytm b tol max_iter <= 1.
Proof.
  intros b tol max_iter HF Hc Hf Hp Ht Hn Hle Hcheap.
  rewrite (ytm_at_upper_end b tol HF Hc Hf Hp Ht max_iter Hn)
    by (to_Q; lra).
  pose proof (width_pos (Z.to_nat max_iter)) as Hw.
  split; [apply Qcle_refl | to_Q; lra].
Qed.

Lemma ytm_above_interval_witness :
  1 - width (Z.to_nat default_max_iter)
  <= calculate_ytm cheap_bond default_tol default_max_iter
  /\ calculate_ytm cheap_bond default_tol default_max_iter <= 1.
Proof.
  apply (ytm_above_interval cheap_bond default_tol default_max_iter).
  - reflexivity.
  - vm_compute. discriminate.
  - reflexivity.
  - vm_compute. discriminate.
  - vm_compute. discriminate.
  - vm_compute. discriminate.
  - vm_compute. discriminate.
  - vm_compute. discriminate.
Defined.

(** X11.  Where [calculate_break_even_yield] ends: for a bond with positive
    face value, non-negative coupon rate, positive payment frequency and at
    least one period, and for every reference price, the first comparison,
    at the rate 1/2, decides the result alone; it is [1 - 2^-20] when the
    price at 1/2 is below the reference price and [2^-20] otherwise. *)
Theorem break_even_ends :
  forall (b : Bond) (reference_price : Qc) (extra : nat),
    0 < face_value b ->
    0 <= coupon_rate b ->
    (0 < payment_frequency b)%Z ->
    (1 <= periods b)%Z ->
    calculate_break_even_yield (21 + extra) b reference_price
    = if ltb (calculate_present_value b (dec 1 2)) reference_price
      then Some (1 - width 20)
      else Some (width 20).
Proof.
  intros b reference_price extra HF Hc Hf Hp.
  apply break_even_runs_to_an_end; assumption.
Qed.

Lemma break_even_ends_witness :
  calculate_break_even_yield (21 + 0) par_bond (market_price par_bond)
  = if ltb (calculate_present_value par_bond (dec 1 2))
           (market_price par_bond)
    then Some (1 - width 20)
    else Some (width 20).
Proof.
  apply (break_even_ends par_bond (market_price par_bond) 0).
  - reflexivity.
  - vm_compute. discriminate.
  - reflexivity.
  - vm_compute. discriminate.
Defined.

(** ** The amortization schedule *)

Lemma amortization_loop_rows (b : Bond) (n : nat) :
  forall t : Z,
    amortization_loop b n t
    = flat_map print_payment_row (amortization_rows b n t).
Proof.
  induction n as [|n IH]; intros t.
  - reflexivity.
  - simpl. rewrite IH. reflexivity.
Qed.

Lemma amortization_rows_length (b : Bond) (n : nat) :
  forall t : Z, List.length (amortization_rows b n t) = n.
Proof.
  induction n as [|n IH]; intros t; simpl; [| rewrite IH]; reflexivity.
Qed.

Lemma amortization_rows_periods (b : Bond) (n : nat) :
  forall t : Z,
    map pay_period (amortization_rows b n t)
    = map (fun i => (t + Z.of_nat i)%Z) (seq 0 n).
Proof.
  induction n as [|n IH]; intros t.
  - reflexivity.
  - simpl. rewrite IH, <- seq_shift, map_map.
    f_equal; [f_equal; lia |].
    apply map_ext. intros i. lia.
Qed.

(** The rows of a loop that ends at [periods]: coupons, then the coupon with
    the face value. *)
Lemma amortization_rows_split (b : Bond) (n : nat) :
  forall t : Z,
    (t + Z.of_nat n = periods b)%Z ->
    exists front : list payment_row,
      amortization_rows b (S n) t
      = front
        ++ [mkPayment (periods b)
              (of_int (periods b) / of_int (payment_frequency b))
              (calculate_coupon b + face_value b)]
      /\ Forall (fun r => pay_amount r = calculate_coupon b) front.
Proof.
  induction n as [|n IH]; intros t Ht.
  - exists []. replace t with (periods b) by lia.
    simpl. rewrite Z.eqb_refl. split; [reflexivity | constructor].
  - destruct (IH (t + 1)%Z) as [front [E Hfront]]; [lia |].
    exists (mkPayment t (of_int t / of_int (payment_frequency b))
                      (calculate_coupon b) :: front).
    split.
    + change (amortization_rows b (S (S n)) t)
        with (mkPayment t (of_int t / of_int (payment_frequency b))
                (if Z.eqb t (periods b)
                 then calculate_coupon b + face_value b
                 else calculate_coupon b)
              :: amortization_rows b (S n) (t + 1)).
      rewrite E. replace (Z.eqb t (periods b)) with false
        by (symmetry; apply Z.eqb_neq; lia).
      reflexivity.
    + constructor; [reflexivity | exact Hfront].
Qed.

Lemma amortization_rows_total (b : Bond) (n : nat) :
  forall t : Z,
    total (map pay_amount (amortization_rows b n t))
    = of_int (Z.of_nat n) * calculate_coupon b
      + (if ((t <=? periods b) && (periods b <? t + Z.of_nat n))%Z
         then face_value b else 0).
Proof.
  induction n as [|n IH]; intros t.
  - simpl. replace ((t <=? periods b) && (periods b <? t + 0))%Z with false.
    + to_Q. change (inject_Z 0) with 0%Q. ring.
    + symmetry. apply andb_false_iff.
      destruct (Z.leb_spec t (periods b)); [right | left; reflexivity].
      apply Z.ltb_ge. lia.
  - change (amortization_rows b (S n) t)
      with (mkPayment t (of_int t / of_int (payment_frequency b))
              (if Z.eqb t (periods b)
               then calculate_coupon b + face_value b
               else calculate_coupon b)
            :: amortization_rows b n (t + 1)).
    simpl map. simpl total. fold (total (map pay_amount
                                           (amortization_rows b n (t + 1)))).
    rewrite IH, Nat2Z.inj_succ. unfold Z.succ. rewrite of_int_succ.
    destruct (Z.eqb_spec t (periods b)) as [E | E].
    + replace ((t + 1 <=? periods b)
               && (periods b <? t + 1 + Z.of_nat n))%Z with false
        by (symmetry; apply andb_false_iff; left; apply Z.leb_gt; lia).
      replace ((t <=? periods b)
               && (periods b <? t + (Z.of_nat n + 1)))%Z with true
        by (symmetry; apply andb_true_iff; split;
            [apply Z.leb_le | apply Z.ltb_lt]; lia).
      ring.
    + replace ((t <=? periods b)
               && (periods b <? t + (Z.of_nat n + 1)))%Z
        with ((t + 1 <=? periods b)
              && (periods b <? t + 1 + Z.of_nat n))%Z.
      * ring.
      * replace (t + 1 + Z.of_nat n)%Z with (t + (Z.of_nat n + 1))%Z by lia.
        f_equal.
        destruct (Z.leb_spec (t + 1) (periods b));
          destruct (Z.leb_spec t (periods b)); trivial; lia.
Qed.

Lemma schedule_total (b : Bond) :
  (1 <= periods b)%Z ->
  total (map pay_amount (amortization_schedule b))
  = of_int (periods b) * calculate_coupon b + face_value b.
Proof.
  intros Hp. unfold amortization_schedule.
  rewrite amortization_rows_total, Z2Nat.id by lia.
  replace ((1 <=? periods b) && (periods b <? 1 + periods b))%Z with true
    by (symmetry; apply andb_true_iff; split;
        [apply Z.leb_le | apply Z.ltb_lt]; lia).
  reflexivity.
Qed.

(** X12.  The amortization schedule of a bond with at least one period:
    what is printed are the rows of the schedule, one per period, numbered
    1 to [periods]; every row but the last pays the coupon, the last one,
    at time [periods / payment_frequency], pays the coupon and the face
    value; and the payments add up to [periods * coupon + face_value]. *)
Theorem amortization_schedule_shape :
  forall b : Bond,
    (1 <= periods b)%Z ->
    display_amortization_schedule b
    = Text ("Amortization Schedule:" ++ nl)
      :: flat_map print_payment_row (amortization_schedule b)
    /\ List.length (amortization_schedule b) = Z.to_nat (periods b)
    /\ map pay_period (amortization_schedule b)
       = map (fun i => (1 + Z.of_nat i)%Z) (seq 0 (Z.to_nat (periods b)))
    /\ (exists front : list payment_row,
          amortization_schedule b
          = front
            ++ [mkPayment (periods b)
                  (of_int (periods b) / of_int (payment_frequency b))
                  (calculate_coupon b + face_value b)]
          /\ Forall (fun r => pay_amount r = calculate_coupon b) front)
    /\ total (map pay_amount (amortization_schedule b))
       = of_int (periods b) * calculate_coupon b + face_value b.
Proof.
  intros b Hp.
  split; [unfold display_amortization_schedule, amortization_schedule;
          rewrite amortization_loop_rows; reflexivity |].
  split; [apply amortization_rows_length |].
  split; [apply amortization_rows_periods |].
  split; [| apply schedule_total, Hp].
  unfold amortization_schedule.
  destruct (Z.to_nat (periods b)) as [|n] eqn:En; [lia |].
  apply amortization_rows_split. lia.
Qed.

Lemma amortization_schedule_shape_witness :
  List.length (amortization_schedule example_bond)
  = Z.to_nat (periods example_bond)
  /\ total (map pay_amount (amortization_schedule example_bond))
     = of_int (periods example_bond) * calculate_coupon example_bond
       + face_value example_bond.
Proof.
  assert (H : (1 <= periods example_bond)%Z) by (vm_compute; discriminate).
  split.
  - apply (amortization_schedule_shape example_bond H).
  - apply (amortization_schedule_shape example_bond H).
Defined.

(** X14.  With no period left ([periods <= 0]) the amortization schedule is
    empty: only the heading is printed. *)
Theorem amortization_schedule_empty :
  forall b : Bond,
    (periods b <= 0)%Z ->
    amortization_schedule b = []
    /\ display_amortization_schedule b
       = [Text ("Amortization Schedule:" ++ nl)].
Proof.
  intros b Hp.
  unfold display_amortization_schedule, amortization_schedule.
  replace (Z.to_nat (periods b)) with 0%nat by lia.
  split; reflexivity.
Qed.

Lemma amortization_schedule_empty_witness :
  amortization_schedule matured_bond = []
  /\ display_amortization_schedule matured_bond
     = [Text ("Amortization Schedule:" ++ nl)].
Proof.
  apply (amortization_schedule_empty matured_bond).
  vm_compute. discriminate.
Defined.

(** ** Frequency analysis *)

Lemma own_frequency (b : Bond) :
  with_payment_frequency (payment_frequency b) b = b.
Proof. destruct b. reflexivity. Qed.

(** X17.  The frequency analysis does not read the bond's own payment
    frequency: it shows the same output whatever frequency the bond was
    entered with, twelve numbers for the frequencies 1, 2 and 4, each
    computed on a copy with that frequency at the original required yield;
    and the figures shown for the bond's own frequency are those of the bond
    itself. *)
Theorem frequency_analysis_ignores_frequency :
  forall (b : Bond) (freq : Z),
    display_frequency_analysis (with_payment_frequency freq b)
    = display_frequency_analysis b
    /\ numbers (display_frequency_analysis b)
       = flat_map
           (fun f =>
              [calculate_present_value (with_payment_frequency f b)
                 (required_yield b);
               calculate_macaulay_duration (with_payment_frequency f b);
               calculate_modified_duration (with_payment_frequency f b);
               calculate_convexity (with_payment_frequency f b)])
           [1; 2; 4]%Z
    /\ texts (print_frequency_row b 1)
       = ["Payment Frequency: "; "Annual"; "Price: "; "Macaulay Duration: ";
          "Modified Duration: "; "Convexity: "]%string
    /\ numbers (print_frequency_row b (payment_frequency b))
       = [calculate_present_value b (required_yield b);
          calculate_macaulay_duration b;
          calculate_modified_duration b;
          calculate_convexity b].
Proof.
  intros b freq.
  split; [reflexivity |]. split; [reflexivity |]. split; [reflexivity |].
  unfold print_frequency_row. rewrite own_frequency. reflexivity.
Qed.

(** ** The mutator, twice *)

Lemma eqb_neq (x y : Qc) : x <> y -> eqb x y = false.
Proof.
  intros H. destruct (eqb x y) eqn:E; [| reflexivity].
  apply eqb_eq in E. contradiction.
Qed.

Lemma ytm_ignores_required_yield (b : Bond) (y tol : Qc) (n : nat) :
  forall low high mid : Qc,
    ytm_loop (with_required_yield y b) tol n low high mid
    = ytm_loop b tol n low high mid.
Proof.
  induction n as [|n IH]; intros low high mid.
  - reflexivity.
  - simpl. rewrite !IH. reflexivity.
Qed.

(** X18.  [calculate_required_yield] is a one-time mutation: a second call
    finds the yield set, changes nothing and prints nothing.  After the
    call on a bond with the sentinel, the stored yield is the yield
    [calculate_ytm] returns for the bond as it then is, which does not read
    [required_yield]. *)
Theorem required_yield_resolved_once :
  forall b : Bond,
    match calculate_required_yield b with
    | Returned _ b1 _ =>
        calculate_required_yield b1 = Returned tt b1 []
        /\ calculate_ytm b1 default_tol default_max_iter
           = calculate_ytm b default_tol default_max_iter
        /\ (if eqb (required_yield b) unset_yield
            then required_yield b1
                 = calculate_ytm b1 default_tol default_max_iter
            else b1 = b)
    | Thrown _ => False
    | Unfinished => False
    end.
Proof.
  intros b. unfold calculate_required_yield at 1.
  destruct (eqb (required_yield b) unset_yield) eqn:E.
  - split; [| split].
    + unfold calculate_required_yield. simpl required_yield.
      rewrite eqb_neq by apply calculate_ytm_set. reflexivity.
    + apply ytm_ignores_required_yield.
    + simpl required_yield. symmetry. apply ytm_ignores_required_yield.
  - split; [| split; reflexivity].
    unfold calculate_required_yield. rewrite E. reflexivity.
Qed.

(** ** The program as a whole *)

Lemma report_returns (extra : nat) (i : input) (b : Bond) :
  exists out : list token, report (21 + extra) i b = Returned tt b out.
Proof.
  destruct (break_even_result b (in_market_price i) extra)
    as [s [mid [_ [_ [Hbe _]]]]].
  assert (Hsens : display_price_sensitivity (21 + extra) b
                  = Some (Text ("Price Sensitivity Analysis:" ++ nl)
                          :: flat_map print_sensitivity_row
                               (map (fun k : Z =>
                                  (required_yield b + of_int k * dec 5 1000,
                                   calculate_present_value b
                                     (required_yield b
                                      + of_int k * dec 5 1000)))
                                  [-2; -1; 0; 1; 2]%Z))).
  { unfold display_price_sensitivity.
    change (21 + extra)%nat with (6 + (15 + extra))%nat.
    rewrite price_sensitivity_rows_eq. reflexivity. }
  unfold report, bind, print, const_call, const_print,
    const_partial_print, const_partial.
  rewrite Hsens, Hbe.
  eexists. reflexivity.
Qed.

(** X19.  [main] runs to its end on every input and nothing is thrown.
    Its two loops without a counter, the [while] loop of
    [calculate_break_even_yield] and the loop on a double of
    [display_price_sensitivity], stop within 21 and 6 tests of their
    conditions (the fuel bounds these two only; the other loops count to
    [max_iter] or [periods]).  The bond analysed has the five values
    entered, and its required yield is never the sentinel -1: it is the
    yield entered, or, when -1 was entered, the yield [calculate_ytm]
    solved. *)
Theorem main_returns :
  forall (i : input) (extra : nat),
    exists (b : Bond) (out : list token),
      bond_main (21 + extra) i = Returned tt b out
      /\ face_value b = in_face_value i
      /\ coupon_rate b = in_coupon_rate i
      /\ market_price b = in_market_price i
      /\ remaining_years b = in_remaining_years i
      /\ payment_frequency b = in_payment_frequency i
      /\ required_yield b <> unset_yield
      /\ required_yield b
         = (if eqb (in_required_yield i) unset_yield
            then calculate_ytm b default_tol default_max_iter
            else in_required_yield i).
Proof.
  intros i extra.
  set (b0 := mkBond (in_face_value i) (in_coupon_rate i) (in_market_price i)
                    (in_remaining_years i) (in_payment_frequency i)
                    (in_required_yield i)).
  unfold bond_main. fold b0. unfold analysis, bind.
  destruct (eqb (in_required_yield i) unset_yield) eqn:E.
  - unfold calculate_required_yield.
    change (required_yield b0) with (in_required_yield i). rewrite E.
    destruct (report_returns extra i
                (with_required_yield
                   (calculate_ytm b0 default_tol default_max_iter) b0))
      as [out Hout].
    rewrite Hout.
    eexists. eexists. split; [reflexivity |].
    repeat (split; [reflexivity |]).
    split; [apply calculate_ytm_set |].
    simpl required_yield. symmetry. apply ytm_ignores_required_yield.
  - unfold ret.
    destruct (report_returns extra i b0) as [out Hout].
    rewrite Hout.
    eexists. eexists. split; [reflexivity |].
    repeat (split; [reflexivity |]).
    split; [| reflexivity].
    simpl required_yield. intros H.
    apply eqb_eq in H. congruence.
Qed.
